(** * Metalness: reflectance models and the IOR fitter of metalness.cpp

    The program computes, for a table of metals given by their complex
    refractive index (n, k) at three wavelengths, the IOR setting of the
    VRayMtl material whose metallic Fresnel curve is closest to the physical
    one, together with two error scores.

    The source computes in C [float] and [double].  Every function below is
    written once, over an interface of the arithmetic the source uses, and is
    read in two ways:
    - [binary32]/[binary64]: IEEE-754 arithmetic, round to nearest even, as
      specified by [SpecFloat]; this reading is executable;
    - [xreal]: exact real arithmetic in which a division by zero or the
      square root of a negative number is undefined and stays undefined
      through every later operation, the way a NaN does.
    Identities between formulas are stated in the exact reading, where
    rounding plays no part; what the program does at a given input, the
    candidates of the sweep and its termination are stated in the IEEE
    reading; facts about the shape of the loops hold for both.

    The headers of the V-Ray SDK are not part of the sources.  The helpers
    the program takes from them are an interface ([SDK]); the clamp is
    written out for ordered arguments ([clamp]) and its value on a NaN is
    left open ([clamp_sdk]). *)

From Stdlib Require Import ZArith List Bool Reals Lra Lia Psatz String.
From Stdlib Require Import Floats.SpecFloat.
From Stdlib Require QArith.
Import ListNotations.

Set Implicit Arguments.

(** ** The arithmetic the source relies on *)

Class Arith (F : Type) : Type := {
  of_int : Z -> F;            (* conversion of an [int], also integer literals *)
  lit : Z -> Z -> F;          (* the decimal literal p/q in this format *)
  fadd : F -> F -> F;
  fsub : F -> F -> F;
  fmul : F -> F -> F;
  fdiv : F -> F -> F;
  fopp : F -> F;
  fsqrt : F -> F;
  fltb : F -> F -> bool       (* the C comparison [x < y] *)
}.

Declare Scope fl_scope.
Delimit Scope fl_scope with fl.
Infix "+" := fadd : fl_scope.
Infix "-" := fsub : fl_scope.
Infix "*" := fmul : fl_scope.
Infix "/" := fdiv : fl_scope.
Infix "<?" := fltb : fl_scope.
Notation "- x" := (fopp x) : fl_scope.

(** [double] next to [float]: [widen] is the implicit promotion, [narrow] the
    cast [float(x)]. *)
Class Widen (F D : Type) : Type := {
  widen : F -> D;
  narrow : D -> F
}.

(** *** IEEE-754 formats *)

Module IEEE.
Section Format.
Variables prec emax : Z.

Definition fromZ (z : Z) : spec_float := binary_normalize prec emax z 0 false.

(** Re-rounding of a value of another format into this one. *)
Definition convert (x : spec_float) : spec_float :=
match x with
| S754_finite s m e => binary_round prec emax s m e
| _ => x
end.

Definition literal (p q : Z) : spec_float :=
SFdiv prec emax (fromZ p) (fromZ q).
End Format.
End IEEE.

Inductive binary32 : Type := B32 (x : spec_float).
Inductive binary64 : Type := B64 (x : spec_float).

Definition b32_val (x : binary32) : spec_float := let 'B32 v := x in v.
Definition b64_val (x : binary64) : spec_float := let 'B64 v := x in v.

Definition b32_op2 (f : Z -> Z -> spec_float -> spec_float -> spec_float)
    (x y : binary32) : binary32 :=
  B32 (f 24%Z 128%Z (b32_val x) (b32_val y)).

Definition b64_op2 (f : Z -> Z -> spec_float -> spec_float -> spec_float)
    (x y : binary64) : binary64 :=
  B64 (f 53%Z 1024%Z (b64_val x) (b64_val y)).

#[export] Instance binary32_arith : Arith binary32 := {
  of_int z := B32 (IEEE.fromZ 24 128 z);
  lit p q := B32 (IEEE.literal 24 128 p q);
  fadd := b32_op2 SFadd;
  fsub := b32_op2 SFsub;
  fmul := b32_op2 SFmul;
  fdiv := b32_op2 SFdiv;
  fopp x := B32 (SFopp (b32_val x));
  fsqrt x := B32 (SFsqrt 24 128 (b32_val x));
  fltb x y := SFltb (b32_val x) (b32_val y)
}.

#[export] Instance binary64_arith : Arith binary64 := {
  of_int z := B64 (IEEE.fromZ 53 1024 z);
  lit p q := B64 (IEEE.literal 53 1024 p q);
  fadd := b64_op2 SFadd;
  fsub := b64_op2 SFsub;
  fmul := b64_op2 SFmul;
  fdiv := b64_op2 SFdiv;
  fopp x := B64 (SFopp (b64_val x));
  fsqrt x := B64 (SFsqrt 53 1024 (b64_val x));
  fltb x y := SFltb (b64_val x) (b64_val y)
}.

#[export] Instance binary32_64 : Widen binary32 binary64 := {
  widen x := B64 (IEEE.convert 53 1024 (b32_val x));
  narrow x := B32 (IEEE.convert 24 128 (b64_val x))
}.

Definition is_nan32 (x : binary32) : bool :=
  match b32_val x with S754_nan => true | _ => false end.

Definition is_nan64 (x : binary64) : bool :=
  match b64_val x with S754_nan => true | _ => false end.

(** *** Exact arithmetic with undefined results *)

Abbreviation xreal := (option R).

Definition xlift2 (f : R -> R -> R) (x y : xreal) : xreal :=
  match x, y with
  | Some a, Some b => Some (f a b)
  | _, _ => None
  end.

Definition xdiv (x y : xreal) : xreal :=
  match x, y with
  | Some a, Some b => if Req_dec_T b 0 then None else Some (a / b)%R
  | _, _ => None
  end.

Definition xsqrt (x : xreal) : xreal :=
  match x with
  | Some a => if Rlt_dec a 0 then None else Some (sqrt a)
  | None => None
  end.

Definition xltb (x y : xreal) : bool :=
  match x, y with
  | Some a, Some b => if Rlt_dec a b then true else false
  | _, _ => false
  end.

#[export] Instance xreal_arith : Arith xreal := {
  of_int z := Some (IZR z);
  lit p q := Some (IZR p / IZR q)%R;
  fadd := xlift2 Rplus;
  fsub := xlift2 Rminus;
  fmul := xlift2 Rmult;
  fdiv := xdiv;
  fopp := option_map Ropp;
  fsqrt := xsqrt;
  fltb := xltb
}.

(** Exact arithmetic has a single format: the promotion and the cast
    [float(x)] change nothing.  What the rounding of the cast does to the
    fitter is stated in the IEEE reading. *)
#[export] Instance xreal_widen : Widen xreal xreal := {
  widen x := x;
  narrow x := x
}.

(** ** Colors *)

(** Modelled from the spec: the [Color] class of the V-Ray SDK header utils.h
    is not part of the sources.  The spec describes it as a 3-component
    vector with componentwise arithmetic and a squared length. *)
Record Color (F : Type) : Type := mkColor { cr : F; cg : F; cb : F }.

Section Models.
Context {F : Type} {AF : Arith F}.
Local Open Scope fl_scope.

Definition color_scale (c : Color F) (f : F) : Color F :=
  mkColor (cr c * f) (cg c * f) (cb c * f).

Definition color_add (a b : Color F) : Color F :=
  mkColor (cr a + cr b) (cg a + cg b) (cb a + cb b).

Definition color_sub (a b : Color F) : Color F :=
  mkColor (cr a - cr b) (cg a - cg b) (cb a - cb b).

Definition lengthSqr (c : Color F) : F :=
  cr c * cr c + cg c * cg c + cb c * cb c.

(** Modelled from the spec: [clamp] comes from utils.h, which is not part
    of the sources.  The spec has the result "clamped to [0,1]".  For an
    ordered argument every clamp returns the value below.  What the SDK
    returns for an unordered argument (a NaN) cannot be read off the
    sources: where a NaN can reach the clamp the statements are made for
    [clamp_sdk] below, which leaves that value open. *)
Definition clamp (x lo hi : F) : F :=
  if x <? lo then lo else if hi <? x then hi else x.

(** *** Physical Fresnel model *)

Definition complexFresnel (n k c : F) : F :=
  let k2 := k * k in
  let rs_num := n * n + k2 - of_int 2 * n * c + c * c in
  let rs_den := n * n + k2 + of_int 2 * n * c + c * c in
  let rs := rs_num / rs_den in
  let rp_num := (n * n + k2) * c * c - of_int 2 * n * c + of_int 1 in
  let rp_den := (n * n + k2) * c * c + of_int 2 * n * c + of_int 1 in
  let rp := rp_num / rp_den in
  clamp (lit 1 2 * (rs + rp)) (lit 0 1) (lit 1 1).

Definition getComplexFresnel (n k : Color F) (cs : F) : Color F :=
  mkColor (complexFresnel (cr n) (cr k) cs)
          (complexFresnel (cg n) (cg k) cs)
          (complexFresnel (cb n) (cb k) cs).

(** *** Reference approximation (Gulbrandsen) *)

Definition n_min (r : F) : F := (of_int 1 - r) / (of_int 1 + r).

(** [sqrt] applied to a [float] is the [float] overload of C++. *)
Definition n_max (r : F) : F := (of_int 1 + fsqrt r) / (of_int 1 - fsqrt r).

Definition get_n (r g : F) : F := n_min r * g + (of_int 1 - g) * n_max r.

Definition get_k2 (r n : F) : F :=
  let nr := (n + of_int 1) * (n + of_int 1) * r
            - (n - of_int 1) * (n - of_int 1) in
  nr / (of_int 1 - r).

Definition get_r (n k : F) : F :=
  ((n - of_int 1) * (n - of_int 1) + k * k)
  / ((n + of_int 1) * (n + of_int 1) + k * k).

Definition get_g (n k : F) : F :=
  let r := get_r n k in
  (n_max r - n) / (n_max r - n_min r).

Definition olefresnel (r g c : F) : F :=
  let _r := clamp r (lit 0 1) (lit 99 100) in
  let n := get_n _r g in
  let k2 := get_k2 _r n in
  let rs_num := n * n + k2 - of_int 2 * n * c + c * c in
  let rs_den := n * n + k2 + of_int 2 * n * c + c * c in
  let rs := rs_num / rs_den in
  let rp_num := (n * n + k2) * c * c - of_int 2 * n * c + of_int 1 in
  let rp_den := (n * n + k2) * c * c + of_int 2 * n * c + of_int 1 in
  let rp := rp_num / rp_den in
  lit 1 2 * (rs + rp).

Definition getOleMetallicFresnel (base reflection : Color F) (cos_theta : F)
    : Color F :=
  mkColor (olefresnel (cr base) (cr reflection) cos_theta)
          (olefresnel (cg base) (cg reflection) cos_theta)
          (olefresnel (cb base) (cb reflection) cos_theta).
End Models.

(** *** The clamp on an unordered argument *)

(** The argument that [complexFresnel] hands to the clamp: half the sum of
    the two quotients, both divisions performed unconditionally. *)
Definition fresnel_raw {F : Type} {AF : Arith F} (n k c : F) : F :=
  (let k2 := k * k in
   let rs_num := n * n + k2 - of_int 2 * n * c + c * c in
   let rs_den := n * n + k2 + of_int 2 * n * c + c * c in
   let rs := rs_num / rs_den in
   let rp_num := (n * n + k2) * c * c - of_int 2 * n * c + of_int 1 in
   let rp_den := (n * n + k2) * c * c + of_int 2 * n * c + of_int 1 in
   let rp := rp_num / rp_den in
   lit 1 2 * (rs + rp))%fl.

(** The denominator of rs as [complexFresnel] computes it. *)
Definition rs_den_of {F : Type} {AF : Arith F} (n k c : F) : F :=
  (let k2 := k * k in n * n + k2 + of_int 2 * n * c + c * c)%fl.

(** Modelled from the spec: the clamp of utils.h with its value on a NaN
    left open.  For an ordered argument it is [clamp]; for a NaN it is
    [on_nan lo hi], whatever the SDK returns there: the NaN itself when the
    clamp is written with two comparisons, one of the bounds when it is
    written with min and max. *)
Definition clamp_sdk (on_nan : binary32 -> binary32 -> binary32)
    (x lo hi : binary32) : binary32 :=
  if is_nan32 x then on_nan lo hi else clamp x lo hi.

(** [complexFresnel] and [getComplexFresnel] in binary32, over [clamp_sdk]. *)
Definition complexFresnel_sdk (on_nan : binary32 -> binary32 -> binary32)
    (n k c : binary32) : binary32 :=
  clamp_sdk on_nan (fresnel_raw n k c) (lit 0 1) (lit 1 1).

Definition getComplexFresnel_sdk (on_nan : binary32 -> binary32 -> binary32)
    (n k : Color binary32) (cs : binary32) : Color binary32 :=
  mkColor (complexFresnel_sdk on_nan (cr n) (cr k) cs)
          (complexFresnel_sdk on_nan (cg n) (cg k) cs)
          (complexFresnel_sdk on_nan (cb n) (cb k) cs).

(** ** The V-Ray SDK helpers the program calls *)

Record Vector3f (F : Type) : Type := mkVector3f { vx : F; vy : F; vz : F }.

(** The headers utils.h and misc_ray.h belong to the V-Ray SDK, not to the
    program: what they provide is an interface here.  [getRefractDir] returns
    the refraction direction together with the new value of its [bool&]
    argument. *)
Class SDK (F : Type) : Type := {
  getRefractDir : Vector3f F -> Vector3f F -> F -> bool -> Vector3f F * bool;
  getFresnelCoeff : Vector3f F -> Vector3f F -> Vector3f F -> F -> F;
  fast_floor : F -> Z;
  floorf : F -> F;
  toRGB32 : Color F -> Z;
  encodeToSRGB : Color F -> Color F
}.

(** ** Production approximation *)

Section Production.
Context {F : Type} {AF : Arith F} {K : SDK F}.
Local Open Scope fl_scope.

Definition getVRayMetallicFresnel (base reflection : Color F) (ior cs : F)
    : Color F :=
  let viewDir := mkVector3f (fsqrt (lit 1 1 - cs * cs)) (lit 0 1) (- cs) in
  let normal := mkVector3f (lit 0 1) (lit 0 1) (lit 1 1) in
  let internalRefl := false in
  let '(refractDir, _) := getRefractDir viewDir normal ior internalRefl in
  let f := getFresnelCoeff viewDir normal refractDir ior in
  color_add (color_scale base (lit 1 1 - f)) (color_scale reflection f).
End Production.

(** ** Loops *)

(** [for (int xs = lo; xs < hi; xs++) s = body xs s;] *)
Fixpoint for_range {S : Type} (count : nat) (xs : Z) (body : Z -> S -> S)
    (s : S) : S :=
  match count with
  | O => s
  | Datatypes.S count' => for_range count' (xs + 1) body (body xs s)
  end.

Definition for_int {S : Type} (lo hi : Z) (body : Z -> S -> S) (s : S) : S :=
  for_range (Z.to_nat (hi - lo)) lo body s.

(** ** Parameter fitter *)

Record fit (F : Type) : Type := mkFit { bestIOR : F; bestResult : F }.

Section Fitter.
Context {F D : Type} {AF : Arith F} {AD : Arith D} {W : Widen F D}
        {K : SDK F}.
Local Open Scope fl_scope.

(** Body of the inner loop of [findIOR]: one viewing angle. *)
Definition fit_sample (n k base reflection : Color F) (ior : F) (xs : Z)
    (sum : D) : D :=
  let x := of_int xs / of_int 200 in
  let vrayMetallicFresnel := getVRayMetallicFresnel base reflection ior x in
  let complexFresnel := getComplexFresnel n k x in
  sum + widen (lengthSqr (color_sub vrayMetallicFresnel complexFresnel)).

(** The accumulated squared error of one candidate. *)
Definition fit_sum (n k base reflection : Color F) (ior : F) : D :=
  for_int 1 200 (fit_sample n k base reflection ior) (widen (lit 0 1)).

(** Body of the outer loop: keep the candidate if it is better. *)
Definition fit_step (n k base reflection : Color F) (ior : F) (st : fit F)
    : fit F :=
  let sum := fit_sum n k base reflection ior in
  if sum <? widen (bestResult st)
  then mkFit ior (narrow sum)
  else st.

(** [for (float ior = ...; ior < 10.0f; ior += 0.001f)]: the number of
    iterations is not known in advance, hence the fuel. *)
Fixpoint sweep (fuel : nat) (n k base reflection : Color F) (ior : F)
    (st : fit F) : option (fit F) :=
  match fuel with
  | O => None
  | S fuel' =>
      if ior <? lit 10 1
      then sweep fuel' n k base reflection (ior + lit 1 1000)
                 (fit_step n k base reflection ior st)
      else Some st
  end.

Definition findIOR (fuel : nat) (n k : Color F) : option F :=
  let st := mkFit (lit (-1) 1) (lit 1000000000000000000 1) in
  let reflection := getComplexFresnel n k (lit 0 1) in
  let base := getComplexFresnel n k (lit 1 1) in
  option_map (@bestIOR F)
    (sweep fuel n k base reflection (lit 1001 1000) st).

(** The candidates the outer loop visits, in order. *)
Fixpoint ior_grid (fuel : nat) (ior : F) : option (list F) :=
  match fuel with
  | O => None
  | S fuel' =>
      if ior <? lit 10 1
      then option_map (cons ior) (ior_grid fuel' (ior + lit 1 1000))
      else Some []
  end.
End Fitter.

(** ** Preset table *)

Record MetalPreset (F : Type) : Type :=
  mkPreset { preset_name : string; preset_n : Color F; preset_k : Color F }.

Definition metalPreset_last : Z := 15.

Section Presets.
Context {F : Type} {AF : Arith F}.

(** A five-digit decimal literal of the table. *)
Definition dec (p q : Z) : F := lit p q.

Definition color3 (q : Z) (a b c : Z) : Color F :=
  mkColor (dec a q) (dec b q) (dec c q).

Definition metalPresets : list (MetalPreset F) :=
  [ mkPreset "Silver"
      (mkColor (dec 52225 1000000) (dec 59582 1000000) (dec 40000 1000000))
      (color3 10000 44094 35974 26484);
    mkPreset "Gold"
      (mkColor (dec 15557 100000) (dec 42415 100000) (dec 13831 10000))
      (color3 10000 36024 24721 19155);
    mkPreset "Copper"
      (mkColor (dec 23780 100000) (dec 10066 10000) (dec 12404 10000))
      (color3 10000 36264 25823 23929);
    mkPreset "Aluminum"
      (mkColor (dec 15580 10000) (dec 10152 10000) (dec 63324 100000))
      (color3 10000 77124 66273 54544);
    mkPreset "Chromium"
      (color3 10000 31071 31812 23230)
      (color3 10000 33314 33291 31350);
    mkPreset "Lead"
      (color3 10000 25750 25444 21038)
      (color3 10000 41612 41823 41890);
    mkPreset "Platinum"
      (color3 100000 47475 46521 63275)
      (color3 10000 63329 51073 37481);
    mkPreset "Titanium"
      (color3 100000 25300 28822 52181)
      (color3 10000 52796 42122 30367);
    mkPreset "Tungsten"
      (mkColor (dec 92074 100000) (dec 13437 10000) (dec 22323 10000))
      (color3 10000 68595 52293 51461);
    mkPreset "Iron"
      (color3 10000 18247 12246 10205)
      (color3 10000 76326 59377 43952);
    mkPreset "Vanadium"
      (color3 100000 43109 60711 91187)
      (color3 10000 55575 45217 36035);
    mkPreset "Zinc"
      (mkColor (dec 12338 10000) (dec 92943 100000) (dec 67767 100000))
      (color3 10000 58730 49751 40122);
    mkPreset "Nickel"
      (color3 10000 13726 10753 11336)
      (color3 10000 66273 51763 37544);
    mkPreset "Mercury"
      (color3 10000 20733 15523 10606)
      (color3 10000 53383 46510 38628);
    mkPreset "Cobalt"
      (color3 10000 22371 20524 17365)
      (color3 10000 42357 38242 32745) ].
End Presets.

(** ** Preset driver *)

(** One line of the CSV report, as the values handed to [fprintf]. *)
Record csv_row (F D : Type) : Type := mkRow {
  row_name : string;
  row_diffuse : Color F;
  row_reflection : Color F;
  row_ior : F;
  row_srgb : Z;
  row_vrayError : D;
  row_oleError : D
}.

Inductive csv_line (F D : Type) : Type :=
| Header
| Row (r : csv_row F D).

Arguments Header {F D}.
Arguments Row {F D} r.

(** What [renderCycle] reads and writes: the global preset table, the bitmap
    [buf] (the pixels written since it was last cleared, newest first) and
    the lines written to the report file.  Repainting the window and the
    pause between two presets leave all three alone and are not modelled. *)
Record World (F D : Type) : Type := mkWorld {
  presets : list (MetalPreset F);
  buf : list (Z * Z);
  csv : list (csv_line F D)
}.

Definition bwidth : Z := 800.
Definition bheight : Z := 800.

Section Driver.
Context {F D : Type} {AF : Arith F} {AD : Arith D} {W : Widen F D}
        {K : SDK F}.
Local Open Scope fl_scope.

Definition putPixel (x y : F) (c : Color F) (b : list (Z * Z))
    : list (Z * Z) :=
  let xs := fast_floor (x * of_int bwidth) in
  let fy := fast_floor (y * of_int (bheight - 1)%Z) in
  let ys := (bheight - 1 - fy)%Z in
  if ((xs <? 0) || (xs >=? bwidth))%Z then b
  else if ((ys <? 0) || (ys >=? bheight))%Z then b
  else ((ys * bwidth + xs)%Z, toRGB32 c) :: b.

Definition putColorGraph (x : F) (c : Color F) (f : F) (b : list (Z * Z))
    : list (Z * Z) :=
  let b := putPixel x (cr c) (mkColor (lit 1 1) f f) b in
  let b := putPixel x (cg c) (mkColor f (lit 1 1) f) b in
  putPixel x (cb c) (mkColor f f (lit 1 1)) b.

(** State of the plotting loop: bitmap, [vrayErrorSqr], [oleErrorSqr]. *)
Record plot (D : Type) : Type :=
  mkPlot { plot_buf : list (Z * Z); vrayErrorSqr : D; oleErrorSqr : D }.

Definition legend : Color F := mkColor (lit 1 10) (lit 9 100) (lit 8 100).

(** Body of the plotting loop of [renderCycle], one viewing angle. *)
Definition plot_sample (N : Z) (n k base reflection : Color F) (ior : F)
    (xs : Z) (st : plot D) : plot D :=
  let x := of_int xs / of_int N in
  let vrayMetallicFresnel := getVRayMetallicFresnel base reflection ior x in
  let oleMetallicFresnel := getOleMetallicFresnel base reflection x in
  let complexFresnel := getComplexFresnel n k x in
  let b := putColorGraph x vrayMetallicFresnel (lit 6 10) (plot_buf st) in
  let b := if ((xs >? 10) && (xs <? 110))%Z
           then putColorGraph x legend (lit 6 10) b else b in
  let b := if (Z.land (Z.quot xs 6) 1 =? 0)%Z
           then let b := putColorGraph x oleMetallicFresnel (lit 4 10) b in
                if ((xs >? 510) && (xs <? 610))%Z
                then putColorGraph x legend (lit 4 10) b else b
           else b in
  let b := if (Z.land (Z.quot xs 20) 1 =? 0)%Z
           then let b := putColorGraph x complexFresnel (lit 0 1) b in
                if ((xs >? 910) && (xs <? 1010))%Z
                then putColorGraph x legend (lit 0 1) b else b
           else b in
  mkPlot b
    (vrayErrorSqr st
     + widen (lengthSqr (color_sub vrayMetallicFresnel complexFresnel)))
    (oleErrorSqr st
     + widen (lengthSqr (color_sub oleMetallicFresnel complexFresnel))).

(** What one iteration of the loop over the presets computes for preset
    [p]: the line of the report and the bitmap. *)
Definition preset_report (fuel : nat) (p : MetalPreset F)
    : option (csv_row F D * list (Z * Z)) :=
  let n := preset_n p in
  let k := preset_k p in
  let reflection := getComplexFresnel n k (lit 0 1) in
  let base := getComplexFresnel n k (lit 1 1) in
  match findIOR (D := D) fuel n k with
  | None => None
  | Some ior =>
      let base_sRGB := encodeToSRGB base in
      let N := (bwidth * 2)%Z in
      let st := for_int 1 N (plot_sample N n k base reflection ior)
                  (mkPlot [] (widen (lit 0 1)) (widen (lit 0 1))) in
      let vrayErrorSqr := vrayErrorSqr st / widen (of_int N) in
      let oleErrorSqr := oleErrorSqr st / widen (of_int N) in
      let vrayError := fsqrt vrayErrorSqr in
      let oleError := fsqrt oleErrorSqr in
      Some (mkRow (preset_name p)
              (mkColor (floorf (cr base * lit 255 1))
                       (floorf (cg base * lit 255 1))
                       (floorf (cb base * lit 255 1)))
              (mkColor (floorf (cr reflection * lit 255 1))
                       (floorf (cg reflection * lit 255 1))
                       (floorf (cb reflection * lit 255 1)))
              ior (toRGB32 base_sRGB) vrayError oleError,
            plot_buf st)
  end.

(** Body of the loop over the presets: the bitmap is cleared and redrawn,
    the line is written if the report file is open. *)
Definition render_preset (fuel : nat) (fp : bool) (presetIdx : Z)
    (w : World F D) : option (World F D) :=
  match nth_error (presets w) (Z.to_nat presetIdx) with
  | None => None
  | Some p =>
      match preset_report fuel p with
      | None => None
      | Some (row, b) =>
          Some (mkWorld (presets w) b
                  (if fp then csv w ++ [Row row] else csv w))
      end
  end.

(** [fp] tells whether [fopen] returned a file. *)
Definition renderCycle (fuel : nat) (fp : bool) (w : World F D)
    : option (World F D) :=
  let w := mkWorld (presets w) (buf w)
             (if fp then csv w ++ [Header] else csv w) in
  for_int 0 metalPreset_last
    (fun presetIdx ow =>
       match ow with
       | None => None
       | Some w => render_preset fuel fp presetIdx w
       end)
    (Some w).
End Driver.

(** ** Closed forms used in the statements *)

(** Numerators and denominators of the s- and p-polarised reflectances of
    [complexFresnel], over the reals. *)
Definition rs_num (n k c : R) : R := (n * n + k * k - 2 * n * c + c * c)%R.
Definition rs_den (n k c : R) : R := (n * n + k * k + 2 * n * c + c * c)%R.
Definition rp_num (n k c : R) : R :=
  ((n * n + k * k) * c * c - 2 * n * c + 1)%R.
Definition rp_den (n k c : R) : R :=
  ((n * n + k * k) * c * c + 2 * n * c + 1)%R.

(** Order tests on [binary32] used in the statements. *)
Definition le32 (x y : binary32) : bool := SFleb (b32_val x) (b32_val y).
Definition lt32 (x y : binary32) : bool := SFltb (b32_val x) (b32_val y).
Definition in_unit32 (x : binary32) : bool :=
  le32 (lit 0 1) x && le32 x (lit 1 1).

(** The normal-incidence reflectance of (n, k), over the reals. *)
Definition r_normal (n k : R) : R :=
  (((n - 1) * (n - 1) + k * k) / ((n + 1) * (n + 1) + k * k))%R.

(** The rational number a finite [binary32] value stands for, the closed
    form of the normal-incidence reflectance over the rationals, and the
    test that [complexFresnel] at cosTheta = 1 returns exactly that closed
    form of its arguments. *)
Definition b32_exact (x : binary32) : option QArith_base.Q :=
  match b32_val x with
  | S754_zero _ => Some (QArith_base.inject_Z 0)
  | S754_finite s m e =>
      Some (QArith_base.Qmult
              (QArith_base.inject_Z (if s then Z.neg m else Z.pos m))
              (QArith_base.Qpower (QArith_base.inject_Z 2) e))
  | _ => None
  end.

Definition r_normalQ (n k : QArith_base.Q) : QArith_base.Q :=
  let one := QArith_base.inject_Z 1 in
  QArith_base.Qdiv
    (QArith_base.Qplus
       (QArith_base.Qmult (QArith_base.Qminus n one) (QArith_base.Qminus n one))
       (QArith_base.Qmult k k))
    (QArith_base.Qplus
       (QArith_base.Qmult (QArith_base.Qplus n one) (QArith_base.Qplus n one))
       (QArith_base.Qmult k k)).

Definition normal_incidence_exactb (n k : binary32) : bool :=
  match b32_exact n, b32_exact k, b32_exact (complexFresnel n k (lit 1 1)) with
  | Some qn, Some qk, Some v => QArith_base.Qeq_bool v (r_normalQ qn qk)
  | _, _, _ => false
  end.

(** The test that [complexFresnel] at cosTheta = 1 returns a value within
    [d] units in the last place of the closed form of its arguments. *)
Definition normal_incidence_ulps (d : Z) (n k : binary32) : bool :=
  match b32_exact n, b32_exact k, b32_exact (complexFresnel n k (lit 1 1)),
        b32_val (complexFresnel n k (lit 1 1)) with
  | Some qn, Some qk, Some v, S754_finite _ _ e =>
      let r := r_normalQ qn qk in
      let t := QArith_base.Qmult (QArith_base.inject_Z d)
                 (QArith_base.Qpower (QArith_base.inject_Z 2) e) in
      QArith_base.Qle_bool (QArith_base.Qminus v r) t
      && QArith_base.Qle_bool (QArith_base.Qminus r v) t
  | _, _, _, _ => false
  end.

(** The Fresnel coefficient [f] that [getVRayMetallicFresnel] obtains from
    the SDK for a given [ior] and cosine. *)
Definition fresnel_coeff {F : Type} {AF : Arith F} {K : SDK F} (ior cs : F)
    : F :=
  let viewDir :=
    mkVector3f (fsqrt (lit 1 1 - cs * cs)%fl) (lit 0 1) (- cs)%fl in
  let normal := mkVector3f (lit 0 1) (lit 0 1) (lit 1 1) in
  getFresnelCoeff viewDir normal
    (fst (getRefractDir viewDir normal ior false)) ior.

(** A minimal instance of the SDK interface, to exercise the statements at
    concrete inputs: the refraction direction is the viewing direction, the
    Fresnel coefficient is Schlick's polynomial in the cosine, the pixel
    helpers are constant. *)
Definition dot3 {F : Type} {AF : Arith F} (a b : Vector3f F) : F :=
  (vx a * vx b + vy a * vy b + vz a * vz b)%fl.

#[export] Instance sample_sdk {F : Type} {AF : Arith F} : SDK F := {
  getRefractDir v _ _ b := (v, b);
  getFresnelCoeff v nrm _ ior :=
    (let c := - dot3 v nrm in
     let q := (ior - of_int 1) / (ior + of_int 1) in
     let m := of_int 1 - c in
     q * q + (of_int 1 - q * q) * (m * m * m * m * m))%fl;
  fast_floor _ := 0%Z;
  floorf x := x;
  toRGB32 _ := 0%Z;
  encodeToSRGB c := c
}.

(** A second instance, whose Fresnel coefficient is the same number [f0]
    for every index and direction: with it every candidate of the sweep has
    the same sum. *)
#[export] Instance flat_sdk {F : Type} {AF : Arith F} (f0 : F) : SDK F := {
  getRefractDir v _ _ b := (v, b);
  getFresnelCoeff _ _ _ _ := f0;
  fast_floor _ := 0%Z;
  floorf x := x;
  toRGB32 _ := 0%Z;
  encodeToSRGB c := c
}.

(** The outer loop of [findIOR] as a left-to-right pass over the candidates
    it visits. *)
Definition select {F D : Type} {AF : Arith F} {AD : Arith D} {W : Widen F D}
    {K : SDK F} (n k base reflection : Color F) (g : list F) (st : fit F)
    : fit F :=
  fold_left (fun st ior => fit_step n k base reflection ior st) g st.

(** The start state of [findIOR] and the number of iterations that is
    enough for its outer loop. *)
Definition fit_init {F : Type} {AF : Arith F} : fit F :=
  mkFit (lit (-1) 1) (lit 1000000000000000000 1).

Definition enough_fuel : nat := Z.to_nat 9000.

(** More tests used in the statements: the all-zero color and order tests
    on [binary64]. *)
Definition zero_color {F : Type} {AF : Arith F} : Color F :=
  mkColor (lit 0 1) (lit 0 1) (lit 0 1).

Definition le64 (x y : binary64) : bool := SFleb (b64_val x) (b64_val y).

Definition nan_or_nonneg64 (x : binary64) : bool :=
  is_nan64 x || le64 (lit 0 1) x.

(** Test on the candidates of the binary32 sweep: there are 8999 of them
    and each lies strictly between 1 and 10. *)
Definition grid_ok (o : option (list binary32)) : bool :=
  match o with
  | Some g =>
      (Z.of_nat (List.length g) =? 8999)%Z
      && forallb (fun p => lt32 (lit 1 1) p && lt32 p (lit 10 1)) g
  | None => false
  end.

(** Test on the candidates of the binary32 sweep: the first one is strictly
    below the last one. *)
Definition grid_ends_ok (o : option (list binary32)) : bool :=
  match o with
  | Some (x :: g) => lt32 x (last (x :: g) x)
  | _ => false
  end.

(** ** Error scores in closed form *)

(** The values of [xs] in [for (int xs = lo; ...; xs++)], [count] of them. *)
Fixpoint zrange (count : nat) (xs : Z) : list Z :=
  match count with
  | O => []
  | S count' => xs :: zrange count' (xs + 1)
  end.

(** The viewing angles xs/N for xs = 1 .. N-1. *)
Definition angles {F : Type} {AF : Arith F} (N : Z) : list F :=
  map (fun xs => (of_int xs / of_int N)%fl) (zrange (Z.to_nat (N - 1)) 1).

(** Sum, from left to right, of the squared distances between two curves. *)
Definition squared_error_sum {F D : Type} {AF : Arith F} {AD : Arith D}
    {W : Widen F D} (approx physical : F -> Color F) (xs : list F) : D :=
  fold_left
    (fun sum x =>
       (sum + widen (lengthSqr (color_sub (approx x) (physical x))))%fl)
    xs (widen (lit 0 1)).

(** The reference score as the spec words it (section 4.4, step 3): over the
    angle samples of the fitter, normalised by the number of samples. *)
Definition referenceRMSE_spec {F D : Type} {AF : Arith F} {AD : Arith D}
    {W : Widen F D} (n k : Color F) : D :=
  let base := getComplexFresnel n k (lit 1 1) in
  let grazing := getComplexFresnel n k (lit 0 1) in
  let samples : list F := angles 200 in
  fsqrt (squared_error_sum (getOleMetallicFresnel base grazing)
           (getComplexFresnel n k) samples
         / of_int (Z.of_nat (List.length samples)))%fl.

(** The two scores as [renderCycle] computes them. *)
Definition oleError_driver {F D : Type} {AF : Arith F} {AD : Arith D}
    {W : Widen F D} (n k : Color F) : D :=
  let base := getComplexFresnel n k (lit 1 1) in
  let reflection := getComplexFresnel n k (lit 0 1) in
  fsqrt (squared_error_sum (getOleMetallicFresnel base reflection)
           (getComplexFresnel n k) (angles 1600)
         / widen (of_int 1600 : F))%fl.

Definition vrayError_driver {F D : Type} {AF : Arith F} {AD : Arith D}
    {W : Widen F D} {K : SDK F} (n k : Color F) (ior : F) : D :=
  let base := getComplexFresnel n k (lit 1 1) in
  let reflection := getComplexFresnel n k (lit 0 1) in
  fsqrt (squared_error_sum (getVRayMetallicFresnel base reflection ior)
           (getComplexFresnel n k) (angles 1600)
         / widen (of_int 1600 : F))%fl.

(** The first entry of the preset table, in binary32. *)
Definition silver : MetalPreset binary32 :=
  mkPreset "Silver"
    (mkColor (dec 52225 1000000) (dec 59582 1000000) (dec 40000 1000000))
    (color3 10000 44094 35974 26484).

(** The sum that the fitter accumulates for Silver at every candidate when
    the Fresnel coefficient is 0.25f throughout. *)
Definition flat_silver_sum : binary64 :=
  fit_sum (K := flat_sdk (lit 1 4)) (preset_n silver) (preset_k silver)
    (getComplexFresnel (preset_n silver) (preset_k silver) (lit 1 1))
    (getComplexFresnel (preset_n silver) (preset_k silver) (lit 0 1))
    (lit 1001 1000).

(** Number of report lines that are records. *)
Definition count_rows {F D : Type} (l : list (csv_line F D)) : nat :=
  List.length
    (filter (fun x => match x with Row _ => true | Header => false end) l).

(** A color of exact arithmetic whose three components are defined. *)
Definition color_defined (c : Color xreal) : Prop :=
  exists x y z : R, c = mkColor (Some x) (Some y) (Some z).

(** A color of exact arithmetic whose three components are defined and lie
    in [0,1]. *)
Definition color_unit (c : Color xreal) : Prop :=
  exists x y z : R,
    c = mkColor (Some x) (Some y) (Some z)
    /\ (0 <= x <= 1)%R /\ (0 <= y <= 1)%R /\ (0 <= z <= 1)%R.

(** ** Further closed forms used in the statements *)

(** The clamp over the reals. *)
Definition clampR (v lo hi : R) : R :=
  if Rlt_dec v lo then lo else if Rlt_dec hi v then hi else v.

(** The average of the s- and p-polarised reflectances for a refractive
    index n and a squared absorption index k2, before any clamp. *)
Definition fresnel_average (n k2 c : R) : R :=
  (1 / 2 * ((n * n + k2 - 2 * n * c + c * c)
            / (n * n + k2 + 2 * n * c + c * c)
            + ((n * n + k2) * c * c - 2 * n * c + 1)
              / ((n * n + k2) * c * c + 2 * n * c + 1)))%R.

(** The two bounds and the result of the back-solve, over the reals. *)
Definition n_minR (r : R) : R := ((1 - r) / (1 + r))%R.
Definition n_maxR (r : R) : R := ((1 + sqrt r) / (1 - sqrt r))%R.
Definition get_nR (r g : R) : R := (n_minR r * g + (1 - g) * n_maxR r)%R.
Definition get_k2R (r n : R) : R :=
  (((n + 1) * (n + 1) * r - (n - 1) * (n - 1)) / (1 - r))%R.

(** Every pixel written lies inside the bitmap of [bwidth] x [bheight]
    entries. *)
Definition in_bitmap (b : list (Z * Z)) : Prop :=
  Forall (fun w => (0 <= fst w < bwidth * bheight)%Z) b.

(** Tests on the candidates of the binary32 sweep: each candidate is
    strictly below the next one; the first is 1.001f and the last lies
    strictly between 9.999 and 9.9995. *)
Fixpoint increasing32 (l : list binary32) : bool :=
  match l with
  | [] => true
  | x :: tl =>
      match tl with
      | [] => true
      | y :: _ => lt32 x y && increasing32 tl
      end
  end.

Definition grid_shape_ok (o : option (list binary32)) : bool :=
  match o with
  | Some g =>
      increasing32 g
      && match g with
         | [] => false
         | x :: _ =>
             match b32_val x, b32_val (lit 1001 1000 : binary32) with
             | S754_finite s m e, S754_finite s' m' e' =>
                 Bool.eqb s s' && Pos.eqb m m' && Z.eqb e e'
             | _, _ => false
             end
         end
      && lt32 (lit 9999 1000) (last g (lit 0 1))
      && lt32 (last g (lit 0 1)) (lit 99995 10000)
  | None => false
  end.

(** * Properties *)

Unset Implicit Arguments.

(** ** Exact arithmetic: the physical model *)

Section ExactPhysical.
Local Open Scope R_scope.

Lemma xdiv_defined (a b : R) :
  b <> 0 -> xdiv (Some a) (Some b) = Some (a / b).
Proof.
  intros Hb. unfold xdiv.
  destruct (Req_dec_T b 0) as [E | _]; [contradiction | reflexivity].
Qed.

Lemma xdiv_by_zero (a b : R) : b = 0 -> xdiv (Some a) (Some b) = None.
Proof.
  intros Hb. unfold xdiv.
  destruct (Req_dec_T b 0) as [_ | N]; [reflexivity | contradiction].
Qed.

Lemma clamp01_exact (v : R) :
  exists w, clamp (Some v : xreal) (lit 0 1) (lit 1 1) = Some w
            /\ 0 <= w <= 1 /\ (0 <= v <= 1 -> w = v).
Proof.
  unfold clamp. cbn.
  destruct (Rlt_dec v (0 / 1)) as [Hlo | Hlo].
  - exists (0 / 1). repeat split; lra.
  - destruct (Rlt_dec (1 / 1) v) as [Hhi | Hhi].
    + exists (1 / 1). repeat split; lra.
    + exists v. repeat split; lra.
Qed.

Lemma complexFresnel_exact (n k c : R) :
  rs_den n k c <> 0 -> rp_den n k c <> 0 ->
  complexFresnel (Some n : xreal) (Some k) (Some c)
  = clamp (Some (1 / 2 * (rs_num n k c / rs_den n k c
                          + rp_num n k c / rp_den n k c)))
          (lit 0 1) (lit 1 1).
Proof.
  intros Hs Hp. unfold complexFresnel, rs_den, rp_den in *.
  cbn [fadd fsub fmul fdiv of_int lit xreal_arith xlift2].
  rewrite !xdiv_defined by assumption. reflexivity.
Qed.

Lemma complexFresnel_defined (n k c : R) :
rs_den n k c <> 0 -> rp_den n k c <> 0 ->
exists w, complexFresnel (Some n : xreal) (Some k) (Some c) = Some w
          /\ 0 <= w <= 1.
Proof.
intros Hs Hp. rewrite (complexFresnel_exact _ _ _ Hs Hp).
destruct (clamp01_exact
            (1 / 2 * (rs_num n k c / rs_den n k c
                      + rp_num n k c / rp_den n k c)))
  as (w & Hw & Hrange & _).
exists w. split; assumption.
Qed.

Lemma rp_den_ge_1 (n k c : R) : 0 <= n -> 0 <= c -> 1 <= rp_den n k c.
Proof.
  intros Hn Hc. unfold rp_den.
  assert (0 <= (n * n + k * k) * (c * c)).
  { apply Rmult_le_pos; nra. }
  nra.
Qed.

Lemma rs_den_zero_iff (n k c : R) :
  0 <= n -> 0 <= c -> (rs_den n k c = 0 <-> n = 0 /\ k = 0 /\ c = 0).
Proof.
  intros Hn Hc. unfold rs_den. split.
  - intros H.
    assert (0 <= n * c) by (apply Rmult_le_pos; assumption).
    assert (Hn2 : n * n = 0) by nra.
    assert (Hk2 : k * k = 0) by nra.
    assert (Hc2 : c * c = 0) by nra.
    repeat split; nra.
  - intros (-> & -> & ->). ring.
Qed.
End ExactPhysical.

(** The identity at normal incidence, in exact arithmetic. *)
Lemma complexFresnel_normal_incidence_exact (n k : R) :
  (0 <= n)%R -> (0 <= k)%R ->
  complexFresnel (Some n : xreal) (Some k) (lit 1 1)
  = Some (((n - 1) * (n - 1) + k * k) / ((n + 1) * (n + 1) + k * k))%R
  /\ complexFresnel (Some n : xreal) (Some k) (lit 1 1)
     = get_r (Some n) (Some k).
Proof.
  intros Hn Hk.
  assert (Hden : ((n + 1) * (n + 1) + k * k <> 0)%R) by nra.
  assert (Hval : complexFresnel (Some n : xreal) (Some k) (lit 1 1)
                 = Some (((n - 1) * (n - 1) + k * k)
                         / ((n + 1) * (n + 1) + k * k))%R).
  { change (lit 1 1 : xreal) with (Some (1 / 1)%R).
    assert (Hs : rs_den n k (1 / 1) <> 0%R) by (unfold rs_den; nra).
    assert (Hp : rp_den n k (1 / 1) <> 0%R) by (unfold rp_den; nra).
    rewrite (complexFresnel_exact _ _ _ Hs Hp).
    destruct (clamp01_exact
                (1 / 2 * (rs_num n k (1 / 1) / rs_den n k (1 / 1)
                          + rp_num n k (1 / 1) / rp_den n k (1 / 1)))%R)
      as (w & -> & _ & Hw).
    assert (Heq : (1 / 2 * (rs_num n k (1 / 1) / rs_den n k (1 / 1)
                            + rp_num n k (1 / 1) / rp_den n k (1 / 1))
                   = ((n - 1) * (n - 1) + k * k)
                     / ((n + 1) * (n + 1) + k * k))%R).
    { unfold rs_num, rs_den, rp_num, rp_den in *. field. repeat split; nra. }
    rewrite Heq in Hw. rewrite Hw; [reflexivity |].
    assert (Hpos : (0 < (n + 1) * (n + 1) + k * k)%R) by nra.
    assert (Hnum : (0 <= (n - 1) * (n - 1) + k * k)%R).
    { pose proof (Rle_0_sqr (n - 1)). pose proof (Rle_0_sqr k).
      unfold Rsqr in *. lra. }
    split.
    - unfold Rdiv. apply Rmult_le_pos; [exact Hnum |].
      left. apply Rinv_0_lt_compat. exact Hpos.
    - apply (Rmult_le_reg_r ((n + 1) * (n + 1) + k * k)); [exact Hpos |].
      unfold Rdiv. rewrite Rmult_assoc, Rinv_l by assumption. nra. }
  split; [exact Hval |].
  rewrite Hval. unfold get_r.
  cbn [fadd fsub fmul fdiv of_int lit xreal_arith xlift2].
  rewrite xdiv_defined by assumption. reflexivity.
Qed.

(** The 45 pairs (n, k) of the preset table, by evaluation. *)
Lemma table_normal_incidence :
  forallb (fun p : MetalPreset binary32 =>
             normal_incidence_ulps 2 (cr (preset_n p)) (cr (preset_k p))
             && normal_incidence_ulps 2 (cg (preset_n p)) (cg (preset_k p))
             && normal_incidence_ulps 2 (cb (preset_n p)) (cb (preset_k p)))
    metalPresets = true.
Proof. vm_compute. reflexivity. Qed.

(** C1, counterexample: in binary32 the value at normal incidence is not
    the closed form.  For the green wavelength of Silver (n = 0.059582f,
    k = 3.5974f) [complexFresnel] returns 16492909 * 2^-24, the closed form
    as [get_r] evaluates it is 16492910 * 2^-24, and the value returned is
    not the closed form of these n and k taken exactly.  The average that
    reaches the clamp is an ordered number here, so the SDK's clamp plays no
    part. *)
Lemma complexFresnel_normal_incidence_rounded :
  ~ (forall n k : binary32,
        le32 (lit 0 1) n = true -> le32 (lit 0 1) k = true ->
        complexFresnel n k (lit 1 1) = get_r n k)
  /\ complexFresnel (lit 59582 1000000 : binary32) (lit 35974 10000) (lit 1 1)
     = B32 (S754_finite false 16492909 (-24))
  /\ get_r (lit 59582 1000000 : binary32) (lit 35974 10000)
     = B32 (S754_finite false 16492910 (-24))
  /\ normal_incidence_exactb (lit 59582 1000000) (lit 35974 10000) = false.
Proof.
  split; [| split; [| split]].
  - intros H.
    specialize (H (lit 59582 1000000) (lit 35974 10000) eq_refl eq_refl).
    vm_compute in H. discriminate H.
  - vm_compute. reflexivity.
  - vm_compute. reflexivity.
  - vm_compute. reflexivity.
Qed.

(** C1, amended: in exact arithmetic, at normal incidence (cosTheta = 1)
    the physical model equals the closed form
    ((n-1)^2 + k^2) / ((n+1)^2 + k^2) for every n >= 0 and k >= 0, which is
    also what [get_r] computes; the same holds for each wavelength component
    of [getComplexFresnel].  In binary32, for each of the 45 pairs (n, k) of
    the preset table, the value computed lies within 2 units in the last
    place of the closed form of that pair. *)
Theorem complexFresnel_normal_incidence :
  (forall n k : R,
      (0 <= n)%R -> (0 <= k)%R ->
      complexFresnel (Some n : xreal) (Some k) (lit 1 1)
      = Some (((n - 1) * (n - 1) + k * k) / ((n + 1) * (n + 1) + k * k))%R
      /\ complexFresnel (Some n : xreal) (Some k) (lit 1 1)
         = get_r (Some n) (Some k))
  /\ (forall p : MetalPreset binary32,
         In p metalPresets ->
         normal_incidence_ulps 2 (cr (preset_n p)) (cr (preset_k p)) = true
         /\ normal_incidence_ulps 2 (cg (preset_n p)) (cg (preset_k p)) = true
         /\ normal_incidence_ulps 2 (cb (preset_n p)) (cb (preset_k p))
            = true).
Proof.
  split.
  - exact complexFresnel_normal_incidence_exact.
  - intros p Hp. pose proof table_normal_incidence as H.
    rewrite forallb_forall in H. specialize (H p Hp).
    apply andb_prop in H as [H Hb]. apply andb_prop in H as [Hr Hg].
    split; [exact Hr |]. split; [exact Hg | exact Hb].
Qed.

Lemma complexFresnel_normal_incidence_witness :
  complexFresnel (Some 2%R : xreal) (Some 3%R) (lit 1 1)
  = Some (((2 - 1) * (2 - 1) + 3 * 3) / ((2 + 1) * (2 + 1) + 3 * 3))%R.
Proof.
  apply (proj1 complexFresnel_normal_incidence 2%R 3%R); lra.
Defined.

(** ** binary32: the literals and the clamp *)

Example literal_tenth :
  (lit 1 10 : binary32) = B32 (S754_finite false 13421773 (-27)).
Proof. vm_compute. reflexivity. Qed.

Example literal_1e18 :
  (lit 1000000000000000000 1 : binary32)
  = B32 (S754_finite false 14551915 36).
Proof. vm_compute. reflexivity. Qed.

(** Silver, red wavelength, at normal incidence: about 0.98983. *)
Example complexFresnel_silver_red :
  complexFresnel (lit 52225 1000000 : binary32) (lit 44094 10000) (lit 1 1)
  = B32 (S754_finite false 16606668 (-24)).
Proof. vm_compute. reflexivity. Qed.

Lemma lit32_zero : (lit 0 1 : binary32) = B32 (S754_zero false).
Proof. reflexivity. Qed.

Lemma lit32_one : (lit 1 1 : binary32) = B32 (S754_finite false 8388608 (-23)).
Proof. reflexivity. Qed.

Lemma clamp01_b32 (x : binary32) :
  is_nan32 (clamp x (lit 0 1) (lit 1 1)) = true
  \/ in_unit32 (clamp x (lit 0 1) (lit 1 1)) = true.
Proof.
  unfold clamp, in_unit32, le32. rewrite lit32_zero, lit32_one.
  destruct x as [[s | s | | s m e]];
    cbn [fltb binary32_arith b32_val]; unfold SFltb, SFleb.
  - right. reflexivity.
  - destruct s; right; reflexivity.
  - left. reflexivity.
  - destruct s; [right; reflexivity |].
    assert (He : (e ?= -23)%Z = CompOpp (-23 ?= e)%Z)
      by apply Z.compare_antisym.
    assert (Hm : Pos.compare_cont Eq m 8388608
                 = CompOpp (Pos.compare_cont Eq 8388608 m))
      by (rewrite Pos.compare_cont_antisym; reflexivity).
    cbn [SFcompare b32_val].
    destruct (-23 ?= e)%Z; destruct (Pos.compare_cont Eq 8388608 m);
      cbn [CompOpp] in He, Hm; right;
      cbn [b32_val SFcompare andb]; rewrite ?He, ?Hm; reflexivity.
Qed.

Lemma clamp01_ordered (x : binary32) :
  is_nan32 x = false -> in_unit32 (clamp x (lit 0 1) (lit 1 1)) = true.
Proof.
  intros Hx. destruct (clamp01_b32 x) as [Hnan | Hin]; [| exact Hin].
  exfalso. revert Hnan. unfold clamp.
  destruct (x <? lit 0 1)%fl; [discriminate |].
  destruct (lit 1 1 <? x)%fl; [discriminate |].
  rewrite Hx. discriminate.
Qed.

(** ** binary32: the physical model over the SDK's clamp *)

Lemma complexFresnel_raw {F : Type} {AF : Arith F} (n k c : F) :
  complexFresnel n k c = clamp (fresnel_raw n k c) (lit 0 1) (lit 1 1).
Proof. reflexivity. Qed.

Lemma complexFresnel_sdk_ordered (on_nan : binary32 -> binary32 -> binary32)
    (n k c : binary32) :
  is_nan32 (fresnel_raw n k c) = false ->
  complexFresnel_sdk on_nan n k c = complexFresnel n k c.
Proof.
  intros H. unfold complexFresnel_sdk, clamp_sdk. rewrite H. reflexivity.
Qed.

Lemma complexFresnel_sdk_unordered (on_nan : binary32 -> binary32 -> binary32)
    (n k c : binary32) :
  is_nan32 (fresnel_raw n k c) = true ->
  complexFresnel_sdk on_nan n k c = on_nan (lit 0 1) (lit 1 1).
Proof.
  intros H. unfold complexFresnel_sdk, clamp_sdk. rewrite H. reflexivity.
Qed.

Lemma complexFresnel_sdk_cases (on_nan : binary32 -> binary32 -> binary32)
    (n k c : binary32) :
  in_unit32 (complexFresnel_sdk on_nan n k c) = true
  \/ (is_nan32 (fresnel_raw n k c) = true
      /\ complexFresnel_sdk on_nan n k c = on_nan (lit 0 1) (lit 1 1)).
Proof.
  destruct (is_nan32 (fresnel_raw n k c)) eqn:E.
  - right. split; [reflexivity |]. apply complexFresnel_sdk_unordered, E.
  - left. rewrite (complexFresnel_sdk_ordered _ _ _ _ E), complexFresnel_raw.
    apply clamp01_ordered, E.
Qed.

Lemma complexFresnel_sdk_unit (on_nan : binary32 -> binary32 -> binary32) :
  in_unit32 (on_nan (lit 0 1) (lit 1 1)) = true ->
  forall n k c : binary32, in_unit32 (complexFresnel_sdk on_nan n k c) = true.
Proof.
  intros Hnan n k c.
  destruct (complexFresnel_sdk_cases on_nan n k c) as [H | [_ H]];
    [exact H | rewrite H; exact Hnan].
Qed.



(** C3, counterexample: a denominator near zero is not treated specially.
    At n = cosTheta = 1e-10f, k = 0 the rs denominator is about 4e-20, below
    1e-18, no guard intervenes and the result is 0.5, not 1.0, whatever the
    SDK's clamp returns for a NaN. *)
Lemma complexFresnel_near_zero_unguarded :
  ~ (exists on_nan : binary32 -> binary32 -> binary32,
       forall n k c : binary32,
         le32 (lit 0 1) n = true -> le32 (lit 0 1) k = true ->
         in_unit32 c = true ->
         lt32 (rs_den_of n k c) (lit 1 1000000000000000000) = true ->
         complexFresnel_sdk on_nan n k c = lit 1 1)
  /\ lt32 (rs_den_of (lit 1 10000000000 : binary32) (lit 0 1)
             (lit 1 10000000000))
          (lit 1 1000000000000000000) = true
  /\ complexFresnel (lit 1 10000000000 : binary32) (lit 0 1)
       (lit 1 10000000000) = lit 1 2.
Proof.
  split; [| split].
  - intros [on_nan H].
    specialize (H (lit 1 10000000000) (lit 0 1) (lit 1 10000000000)
                  eq_refl eq_refl eq_refl eq_refl).
    rewrite complexFresnel_sdk_ordered in H by (vm_compute; reflexivity).
    vm_compute in H. discriminate H.
  - vm_compute. reflexivity.
  - vm_compute. reflexivity.
Qed.

(** C3, amended: [complexFresnel] has no guard; it returns the clamp of
    half the sum of the two quotients.  In exact arithmetic, for n >= 0,
    k >= 0 and cosTheta in [0,1], the rp denominator is at least 1, the rs
    denominator is zero exactly at n = k = cosTheta = 0, and away from that
    point the result is that clamped value.  In binary32 the result is that
    clamped value whenever it is ordered; at n = k = cosTheta = 0 the
    quotient rs is the NaN of 0/0 and the result is what the SDK's clamp
    returns for a NaN. *)
Theorem complexFresnel_no_guard :
  (forall n k c : R,
      (0 <= n)%R -> (0 <= k)%R -> (0 <= c <= 1)%R ->
      (1 <= rp_den n k c)%R
      /\ (rs_den n k c = 0%R <-> n = 0%R /\ k = 0%R /\ c = 0%R)
      /\ (~ (n = 0%R /\ k = 0%R /\ c = 0%R) ->
          complexFresnel (Some n : xreal) (Some k) (Some c)
          = clamp (Some (1 / 2 * (rs_num n k c / rs_den n k c
                                  + rp_num n k c / rp_den n k c))%R)
              (lit 0 1) (lit 1 1)))
  /\ (forall (on_nan : binary32 -> binary32 -> binary32) (n k c : binary32),
         is_nan32 (fresnel_raw n k c) = false ->
         complexFresnel_sdk on_nan n k c
         = clamp (fresnel_raw n k c) (lit 0 1) (lit 1 1))
  /\ (forall on_nan : binary32 -> binary32 -> binary32,
         is_nan32 (fresnel_raw (lit 0 1 : binary32) (lit 0 1) (lit 0 1)) = true
         /\ complexFresnel_sdk on_nan (lit 0 1) (lit 0 1) (lit 0 1)
            = on_nan (lit 0 1) (lit 1 1)).
Proof.
  split; [| split].
  - intros n k c Hn Hk Hc.
    split; [apply rp_den_ge_1; tauto |].
    split; [apply rs_den_zero_iff; tauto |].
    intros Hnz. apply complexFresnel_exact.
    + intros E. apply Hnz. apply rs_den_zero_iff; tauto.
    + pose proof (rp_den_ge_1 n k c Hn (proj1 Hc)). lra.
  - intros on_nan n k c H.
    rewrite (complexFresnel_sdk_ordered _ _ _ _ H). apply complexFresnel_raw.
  - intros on_nan.
    assert (H : is_nan32 (fresnel_raw (lit 0 1 : binary32) (lit 0 1) (lit 0 1))
                = true) by (vm_compute; reflexivity).
    split; [exact H |]. apply complexFresnel_sdk_unordered, H.
Qed.

Lemma complexFresnel_no_guard_witness :
  (1 <= rp_den 2 3 (1 / 2))%R
  /\ complexFresnel (Some 2%R : xreal) (Some 3%R) (Some (1 / 2)%R)
     = clamp (Some (1 / 2 * (rs_num 2 3 (1 / 2) / rs_den 2 3 (1 / 2)
                             + rp_num 2 3 (1 / 2) / rp_den 2 3 (1 / 2)))%R)
         (lit 0 1) (lit 1 1).
Proof.
  destruct (proj1 complexFresnel_no_guard 2%R 3%R (1 / 2)%R)
    as (H1 & _ & H3); try lra.
  split; [exact H1 |]. apply H3. lra.
Defined.

(** ** Exact arithmetic: the back-solve of the reference approximation *)

Section ExactBackSolve.
Local Open Scope R_scope.

Ltac xred := cbn [fadd fsub fmul fdiv fsqrt of_int lit xreal_arith xlift2].

Lemma get_r_exact (n k : R) :
  0 <= n -> get_r (Some n : xreal) (Some k) = Some (r_normal n k).
Proof.
  intros Hn. unfold get_r, r_normal. xred.
  rewrite xdiv_defined by nra. reflexivity.
Qed.

Lemma r_normal_range (n k : R) : 0 < n -> 0 <= r_normal n k < 1.
Proof.
  intros Hn. unfold r_normal.
  assert (Hpos : 0 < (n + 1) * (n + 1) + k * k) by nra.
  assert (Hnum : 0 <= (n - 1) * (n - 1) + k * k).
  { pose proof (Rle_0_sqr (n - 1)). pose proof (Rle_0_sqr k).
    unfold Rsqr in *. lra. }
  split.
  - unfold Rdiv. apply Rmult_le_pos; [exact Hnum |].
    left. apply Rinv_0_lt_compat. exact Hpos.
  - apply (Rmult_lt_reg_r ((n + 1) * (n + 1) + k * k)); [exact Hpos |].
    unfold Rdiv. rewrite Rmult_assoc, Rinv_l by lra. nra.
Qed.

Lemma r_normal_zero (n k : R) :
  0 <= n -> r_normal n k = 0 -> n = 1 /\ k = 0.
Proof.
  intros Hn H. unfold r_normal in H.
  assert (Hpos : 0 < (n + 1) * (n + 1) + k * k) by nra.
  assert (Hnum : (n - 1) * (n - 1) + k * k = 0).
  { apply (Rmult_eq_reg_r (/ ((n + 1) * (n + 1) + k * k))).
    - unfold Rdiv in H. rewrite H. ring.
    - apply Rinv_neq_0_compat. lra. }
  pose proof (Rle_0_sqr (n - 1)). pose proof (Rle_0_sqr k).
  unfold Rsqr in *.
  assert ((n - 1) * (n - 1) = 0) by lra.
  assert (k * k = 0) by lra.
  split; nra.
Qed.

Lemma n_min_exact (r : R) :
  0 <= r -> n_min (Some r : xreal) = Some ((1 - r) / (1 + r)).
Proof.
  intros Hr. unfold n_min. xred. rewrite xdiv_defined by lra. reflexivity.
Qed.

Lemma sqrt_lt_one (r : R) : 0 <= r < 1 -> 0 <= sqrt r < 1.
Proof.
  intros [H0 H1]. split; [apply sqrt_pos |].
  rewrite <- sqrt_1. apply sqrt_lt_1_alt. lra.
Qed.

Lemma n_max_exact (r : R) :
  0 <= r < 1 ->
  n_max (Some r : xreal) = Some ((1 + sqrt r) / (1 - sqrt r)).
Proof.
  intros Hr. pose proof (sqrt_lt_one _ Hr) as Hs.
  unfold n_max. xred. unfold xsqrt.
  destruct (Rlt_dec r 0) as [Hneg | _]; [lra |]. xred.
  rewrite xdiv_defined by lra. reflexivity.
Qed.

(** The two bounds of the back-solve differ by 2s(1+s)/((1-s)(1+s^2)),
    s the square root of r: they coincide exactly at r = 0. *)
Lemma n_max_minus_n_min (r : R) :
  0 <= r < 1 ->
  (1 + sqrt r) / (1 - sqrt r) - (1 - r) / (1 + r)
  = 2 * sqrt r * (1 + sqrt r) / ((1 - sqrt r) * (1 + r)).
Proof.
  intros Hr. pose proof (sqrt_lt_one _ Hr) as Hs.
  assert (Hsq : r = sqrt r * sqrt r) by (symmetry; apply sqrt_sqrt; lra).
  destruct Hr as [_ Hr1]. revert Hsq Hs. generalize (sqrt r) as s.
  intros s -> Hs. field. split; nra.
Qed.

Lemma n_max_neq_n_min (r : R) :
  0 < r < 1 -> (1 + sqrt r) / (1 - sqrt r) - (1 - r) / (1 + r) <> 0.
Proof.
  intros Hr. assert (Hr' : 0 <= r < 1) by lra.
  pose proof (sqrt_lt_one _ Hr') as Hs.
  assert (Hs0 : 0 < sqrt r) by (apply sqrt_lt_R0; lra).
  rewrite (n_max_minus_n_min _ Hr').
  assert (Hd : 0 < (1 - sqrt r) * (1 + r)) by (apply Rmult_lt_0_compat; lra).
  assert (Hn : 0 < 2 * sqrt r * (1 + sqrt r)) by nra.
  apply Rgt_not_eq. unfold Rdiv.
  apply Rmult_lt_0_compat; [exact Hn | apply Rinv_0_lt_compat; exact Hd].
Qed.
End ExactBackSolve.

(** C10, counterexample: at n = 1, k = 0 the forward map gives r = 0, where
    [n_max] and [n_min] are both 1, so [get_g] divides 0 by 0: the back-solve
    does not return n (undefined in exact arithmetic, NaN in binary32). *)
Lemma get_n_not_inverse_at_one :
  ~ (forall n k : R,
        (0 < n)%R -> (0 <= k)%R ->
        get_n (get_r (Some n : xreal) (Some k)) (get_g (Some n) (Some k))
        = Some n)
  /\ is_nan32 (get_n (get_r (lit 1 1) (lit 0 1))
                     (get_g (lit 1 1) (lit 0 1))) = true.
Proof.
  split; [| vm_compute; reflexivity].
  intros H. specialize (H 1%R 0%R ltac:(lra) ltac:(lra)).
  unfold get_g in H. rewrite get_r_exact in H by lra.
  assert (Hr : r_normal 1 0 = 0%R) by (unfold r_normal; field).
  rewrite Hr in H.
  rewrite n_max_exact, n_min_exact in H by lra.
  cbn [fsub fdiv xreal_arith xlift2] in H.
  rewrite xdiv_by_zero in H by (rewrite sqrt_0; field).
  unfold get_n in H. rewrite n_max_exact, n_min_exact in H by lra.
  cbn [fsub fmul fadd xreal_arith xlift2] in H. discriminate H.
Qed.

(** C10, amended: for every n > 0 and k >= 0 other than (n, k) = (1, 0), with
    r = get_r(n, k) and g = get_g(n, k), get_n(r, g) = n and
    get_k2(r, get_n(r, g)) = k^2.  Exact arithmetic. *)
Theorem get_n_get_k2_invert (n k : R) :
  (0 < n)%R -> (0 <= k)%R -> ~ (n = 1 /\ k = 0)%R ->
  let r := get_r (Some n : xreal) (Some k) in
  let g := get_g (Some n : xreal) (Some k) in
  get_n r g = Some n /\ get_k2 r (get_n r g) = Some (k * k)%R.
Proof.
  intros Hn Hk Hne r g.
  pose proof (r_normal_range n k Hn) as Hrange.
  assert (Hr0 : (0 < r_normal n k)%R).
  { destruct (Req_dec_T (r_normal n k) 0) as [E | E]; [| lra].
    exfalso. apply Hne. apply r_normal_zero; [lra | exact E]. }
  assert (Hr : (0 < r_normal n k < 1)%R) by lra.
  assert (Hr' : (0 <= r_normal n k < 1)%R) by lra.
  pose proof (n_max_neq_n_min _ Hr) as Hdiff.
  pose proof (sqrt_lt_one _ Hr') as Hs.
  assert (Hn_eq : get_n r g = Some n).
  { subst r g. unfold get_g, get_n. rewrite get_r_exact by lra.
    rewrite n_max_exact, n_min_exact by lra.
    cbn [fsub fdiv fadd fmul of_int xreal_arith xlift2].
    rewrite xdiv_defined by exact Hdiff.
    cbn [xlift2]. f_equal.
    revert Hdiff.
    generalize ((1 + sqrt (r_normal n k)) / (1 - sqrt (r_normal n k)))%R as A.
    generalize ((1 - r_normal n k) / (1 + r_normal n k))%R as B.
    intros B A Hdiff. field. exact Hdiff. }
  split; [exact Hn_eq |].
  rewrite Hn_eq. subst r. rewrite get_r_exact by lra.
  unfold get_k2. cbn [fsub fdiv fadd fmul of_int xreal_arith xlift2].
  rewrite xdiv_defined by lra. f_equal.
  unfold r_normal. field. split; nra.
Qed.

Lemma get_n_get_k2_invert_witness :
  get_n (get_r (Some 2%R : xreal) (Some 3%R)) (get_g (Some 2%R) (Some 3%R))
  = Some 2%R.
Proof.
  apply (get_n_get_k2_invert 2 3); lra.
Defined.

(** ** Production approximation *)

Lemma getVRayMetallicFresnel_blend {F : Type} {AF : Arith F} {K : SDK F}
    (base reflection : Color F) (ior cs : F) :
  getVRayMetallicFresnel base reflection ior cs
  = color_add (color_scale base (lit 1 1 - fresnel_coeff ior cs)%fl)
              (color_scale reflection (fresnel_coeff ior cs)).
Proof.
  unfold getVRayMetallicFresnel, fresnel_coeff.
  destruct (getRefractDir _ _ ior false) as [refractDir internalRefl].
  reflexivity.
Qed.

(** C7, counterexample: in binary32 the blend of a color with itself is not
    always that color, because both products and the sum are rounded.  With
    the Schlick coefficient of [sample_sdk], base (0.01f, 0.02f, 0.03f),
    param 1.5f and cosTheta 0.8f the red and green components come out one
    unit in the last place below the base.  Whatever the SDK helpers are,
    when the coefficient they return is 0.1f the blend of 0.9f with itself is
    not 0.9f. *)
Lemma getVRayMetallicFresnel_same_colors_rounded :
  ~ (forall (K : SDK binary32) (base : Color binary32) (param cs : binary32),
        lt32 (lit 1 1) param = true -> in_unit32 cs = true ->
        getVRayMetallicFresnel base base param cs = base)
  /\ (forall (K : SDK binary32) (param cs : binary32),
         fresnel_coeff param cs = lit 1 10 ->
         getVRayMetallicFresnel
           (mkColor (lit 9 10) (lit 9 10) (lit 9 10))
           (mkColor (lit 9 10) (lit 9 10) (lit 9 10)) param cs
         <> mkColor (lit 9 10) (lit 9 10) (lit 9 10)).
Proof.
  split.
  - intros H.
    specialize (H sample_sdk
                  (mkColor (lit 1 100) (lit 2 100) (lit 3 100))
                  (lit 15 10) (lit 8 10) eq_refl eq_refl).
    vm_compute in H. discriminate H.
  - intros K param cs Hf. rewrite getVRayMetallicFresnel_blend, Hf.
    vm_compute. discriminate.
Qed.

(** C7, amended: in exact arithmetic, when the grazing color equals the base
    color the production approximation returns the base color, for every
    param > 1 and cosTheta in [0,1], whatever coefficient f the SDK computes
    (a defined one). *)
Theorem getVRayMetallicFresnel_same_colors (K : SDK xreal)
    (base : Color xreal) (param cs f : R) :
  (1 < param)%R -> (0 <= cs <= 1)%R ->
  fresnel_coeff (Some param) (Some cs) = Some f ->
  getVRayMetallicFresnel base base (Some param) (Some cs) = base.
Proof.
  intros _ _ Hf. rewrite getVRayMetallicFresnel_blend, Hf.
  destruct base as [[r |] [g |] [b |]];
    unfold color_add, color_scale;
    cbn [cr cg cb fadd fsub fmul lit xreal_arith xlift2];
    repeat match goal with
      | |- context [Some (?x * (1 / 1 - f) + ?x * f)%R] =>
          replace (x * (1 / 1 - f) + x * f)%R with x by field
      end;
    reflexivity.
Qed.

Lemma getVRayMetallicFresnel_same_colors_witness :
  getVRayMetallicFresnel (K := sample_sdk)
    (mkColor (Some (1 / 4)%R) (Some (1 / 2)%R) (Some (3 / 4)%R))
    (mkColor (Some (1 / 4)%R) (Some (1 / 2)%R) (Some (3 / 4)%R))
    (Some 2%R) (Some (1 / 2)%R)
  = mkColor (Some (1 / 4)%R) (Some (1 / 2)%R) (Some (3 / 4)%R).
Proof.
  eapply (getVRayMetallicFresnel_same_colors sample_sdk _ 2 (1 / 2)); try lra.
  unfold fresnel_coeff.
  cbn [getFresnelCoeff getRefractDir sample_sdk fst dot3 vx vy vz
       fadd fsub fmul fdiv fopp fsqrt of_int lit xreal_arith xlift2 xsqrt].
  destruct (Rlt_dec (1 / 1 - 1 / 2 * (1 / 2)) 0) as [Hneg | _]; [lra |].
  cbn [xlift2 option_map]. rewrite xdiv_defined by lra. reflexivity.
Defined.

(** ** The sweep of the fitter, for any arithmetic *)

Section SweepFacts.
Context {F D : Type} {AF : Arith F} {AD : Arith D} {W : Widen F D}
        {K : SDK F}.
Variables n k base reflection : Color F.
Local Open Scope fl_scope.

Lemma ior_grid_fuel_mono (fuel fuel' : nat) (ior : F) (g : list F) :
  ior_grid fuel ior = Some g -> (fuel <= fuel')%nat ->
  ior_grid fuel' ior = Some g.
Proof.
  revert fuel' ior g. induction fuel as [| fuel IH]; intros fuel' ior g Hg Hle.
  - discriminate Hg.
  - destruct fuel' as [| fuel']; [lia |].
    cbn [ior_grid] in *. destruct (ior <? lit 10 1); [| exact Hg].
    destruct (ior_grid fuel (ior + lit 1 1000)) as [g' |] eqn:Hg';
      [| discriminate Hg].
    rewrite (IH fuel' _ g' Hg') by lia. exact Hg.
Qed.

Lemma sweep_grid (fuel : nat) (ior : F) (st : fit F) (g : list F) :
  ior_grid fuel ior = Some g ->
  sweep fuel n k base reflection ior st
  = Some (select n k base reflection g st).
Proof.
  revert ior st g. induction fuel as [| fuel IH]; intros ior st g Hg.
  - discriminate Hg.
  - cbn [ior_grid sweep] in *. destruct (ior <? lit 10 1).
    + destruct (ior_grid fuel (ior + lit 1 1000)) as [g' |] eqn:Hg';
        [| discriminate Hg].
      injection Hg as <-. rewrite (IH _ _ g' Hg'). reflexivity.
    + injection Hg as <-. reflexivity.
Qed.

Lemma sweep_defined_grid (fuel : nat) (ior : F) (st st' : fit F) :
  sweep fuel n k base reflection ior st = Some st' ->
  exists g, ior_grid fuel ior = Some g.
Proof.
  revert ior st. induction fuel as [| fuel IH]; intros ior st Hs.
  - discriminate Hs.
  - cbn [ior_grid sweep] in *. destruct (ior <? lit 10 1).
    + destruct (IH _ _ Hs) as [g' ->]. eexists. reflexivity.
    + eexists. reflexivity.
Qed.

Lemma fit_step_better (ior : F) (st : fit F) :
  (fit_sum n k base reflection ior <? widen (bestResult st)) = true ->
  fit_step n k base reflection ior st
  = mkFit ior (narrow (fit_sum n k base reflection ior)).
Proof. intros H. unfold fit_step. rewrite H. reflexivity. Qed.

Lemma fit_step_not_better (ior : F) (st : fit F) :
  (fit_sum n k base reflection ior <? widen (bestResult st)) = false ->
  fit_step n k base reflection ior st = st.
Proof. intros H. unfold fit_step. rewrite H. reflexivity. Qed.

Lemma select_app (g1 g2 : list F) (st : fit F) :
  select n k base reflection (g1 ++ g2) st
  = select n k base reflection g2 (select n k base reflection g1 st).
Proof. apply fold_left_app. Qed.

(** Either no candidate was ever better than the start state, or the
    result is the last candidate [p] that was strictly below the retained
    best when it was scanned; every later candidate then failed the test
    against the sum retained for [p]. *)
Lemma select_cases (g : list F) (st : fit F) :
  (select n k base reflection g st = st
   /\ forall q, In q g ->
        (fit_sum n k base reflection q <? widen (bestResult st)) = false)
  \/ exists g1 p g2,
       g = g1 ++ p :: g2
       /\ select n k base reflection g st
          = mkFit p (narrow (fit_sum n k base reflection p))
       /\ (fit_sum n k base reflection p
           <? widen (bestResult (select n k base reflection g1 st))) = true
       /\ forall q, In q g2 ->
            (fit_sum n k base reflection q
             <? widen (narrow (fit_sum n k base reflection p))) = false.
Proof.
  induction g as [| x g IH] using rev_ind.
  - left. split; [reflexivity | intros q []].
  - rewrite select_app.
    change (select n k base reflection [x]
              (select n k base reflection g st))
      with (fit_step n k base reflection x
              (select n k base reflection g st)).
    destruct (fit_sum n k base reflection x
              <? widen (bestResult (select n k base reflection g st)))
      eqn:Hx.
    + rewrite (fit_step_better _ _ Hx).
      right. exists g, x, []. repeat split; [assumption | intros q []].
    + rewrite (fit_step_not_better _ _ Hx).
      destruct IH as [[Hsame Hall] | (g1 & p & g2 & -> & Hsel & Hp & Hall)].
      * left. split; [exact Hsame |].
        intros q Hq. apply in_app_or in Hq as [Hq | [<- | []]].
        -- apply Hall, Hq.
        -- rewrite <- Hsame. exact Hx.
      * right. exists g1, p, (g2 ++ [x]).
        rewrite <- app_assoc. repeat split; try assumption.
        intros q Hq. apply in_app_or in Hq as [Hq | [<- | []]].
        -- apply Hall, Hq.
        -- rewrite Hsel in Hx. exact Hx.
Qed.

Lemma select_unchanged (g : list F) (st : fit F) :
  (forall q, In q g ->
     (fit_sum n k base reflection q <? widen (bestResult st)) = false) ->
  select n k base reflection g st = st.
Proof.
  revert st. induction g as [| x g IH]; intros st Hall; [reflexivity |].
  cbn [select fold_left].
  rewrite (fit_step_not_better _ _ (Hall x (or_introl eq_refl))).
  apply IH. intros q Hq. apply Hall. right. exact Hq.
Qed.
End SweepFacts.

(** ** binary32: termination of the sweep *)

Lemma grid_ok_sound (o : option (list binary32)) :
  grid_ok o = true ->
  exists g : list binary32,
    o = Some g
    /\ Z.of_nat (List.length g) = 8999%Z
    /\ forall p, In p g ->
         lt32 (lit 1 1) p = true /\ lt32 p (lit 10 1) = true.
Proof.
  destruct o as [g |]; [| discriminate].
  intros H. exists g. apply andb_prop in H as [Hlen Hall].
  split; [reflexivity |]. split; [apply Z.eqb_eq, Hlen |].
  intros p Hp. rewrite forallb_forall in Hall.
  apply andb_prop. apply Hall, Hp.
Qed.

(** The loop [for (float ior = 1.001f; ior < 10.0f; ior += 0.001f)] stops
    after 8999 iterations, by evaluation. *)
Lemma grid32 :
  exists g : list binary32,
    ior_grid enough_fuel (lit 1001 1000) = Some g
    /\ Z.of_nat (List.length g) = 8999%Z
    /\ forall p, In p g ->
         lt32 (lit 1 1) p = true /\ lt32 p (lit 10 1) = true.
Proof.
  apply grid_ok_sound. vm_compute. reflexivity.
Qed.

Lemma sqrt64_nan_or_nonneg (x : binary64) :
  nan_or_nonneg64 (fsqrt x) = true.
Proof.
  unfold nan_or_nonneg64, is_nan64, le64.
  destruct x as [[s | s | | s m e]]; cbn [fsqrt binary64_arith b64_val SFsqrt].
  - destruct s; reflexivity.
  - destruct s; reflexivity.
  - reflexivity.
  - destruct s; [reflexivity |].
    destruct (SFsqrt_core_binary 53 1024 (Z.pos m) e) as [[mz ez] lz].
    unfold binary_round_aux.
    destruct (shr_fexp 53 1024 mz ez lz) as [mrs' e'].
    destruct (shr_fexp 53 1024 _ e' loc_Exact) as [mrs'' e''].
    destruct (shr_m mrs'') as [| p | p]; [reflexivity | | reflexivity].
    destruct (e'' <=? 1024 - 53)%Z; reflexivity.
Qed.

(** ** The fitter: termination, range, determinism *)

Section FuelIndependence.
Context {F D : Type} {AF : Arith F} {AD : Arith D} {W : Widen F D}
        {K : SDK F}.

Lemma sweep_fuel_indep (n k base reflection : Color F) (fuel1 fuel2 : nat)
    (ior : F) (st st1 st2 : fit F) :
  sweep fuel1 n k base reflection ior st = Some st1 ->
  sweep fuel2 n k base reflection ior st = Some st2 ->
  st1 = st2.
Proof.
  intros H1 H2.
  destruct (sweep_defined_grid _ _ _ _ _ _ _ _ H1) as [g1 Hg1].
  destruct (sweep_defined_grid _ _ _ _ _ _ _ _ H2) as [g2 Hg2].
  assert (Hg : g1 = g2).
  { pose proof (ior_grid_fuel_mono _ (Nat.max fuel1 fuel2) _ _ Hg1
                  (Nat.le_max_l _ _)) as E1.
    pose proof (ior_grid_fuel_mono _ (Nat.max fuel1 fuel2) _ _ Hg2
                  (Nat.le_max_r _ _)) as E2.
    congruence. }
  subst g2.
  rewrite sweep_grid with (g := g1) in H1 by exact Hg1.
  rewrite sweep_grid with (g := g1) in H2 by exact Hg2.
  congruence.
Qed.

Lemma findIOR_fuel_indep (n k : Color F) (fuel1 fuel2 : nat) (r1 r2 : F) :
  findIOR (D := D) fuel1 n k = Some r1 ->
  findIOR (D := D) fuel2 n k = Some r2 ->
  r1 = r2.
Proof.
  unfold findIOR. intros H1 H2.
  destruct (sweep fuel1 _ _ _ _ _ _) as [st1 |] eqn:E1; [| discriminate H1].
  destruct (sweep fuel2 _ _ _ _ _ _) as [st2 |] eqn:E2; [| discriminate H2].
  cbn [option_map] in H1, H2.
  rewrite (sweep_fuel_indep _ _ _ _ _ _ _ _ _ _ E1 E2) in H1. congruence.
Qed.

Lemma preset_report_fuel_indep (p : MetalPreset F) (fuel1 fuel2 : nat)
    (rep1 rep2 : csv_row F D * list (Z * Z)) :
  preset_report fuel1 p = Some rep1 ->
  preset_report fuel2 p = Some rep2 ->
  rep1 = rep2.
Proof.
  unfold preset_report. intros H1 H2.
  destruct (findIOR fuel1 _ _) as [r1 |] eqn:E1; [| discriminate H1].
  destruct (findIOR fuel2 _ _) as [r2 |] eqn:E2; [| discriminate H2].
  rewrite (findIOR_fuel_indep _ _ _ _ _ _ E1 E2) in H1. congruence.
Qed.
End FuelIndependence.

Section Binary32Fitter.
Context {K : SDK binary32}.
Local Open Scope fl_scope.

Lemma findIOR_select (n k : Color binary32) (fuel : nat) (g : list binary32) :
  ior_grid fuel (lit 1001 1000) = Some g ->
  findIOR (D := binary64) fuel n k
  = Some (bestIOR (select n k (getComplexFresnel n k (lit 1 1))
                     (getComplexFresnel n k (lit 0 1)) g fit_init)).
Proof.
  intros Hg. unfold findIOR.
  rewrite sweep_grid with (g := g) by exact Hg. reflexivity.
Qed.

Lemma findIOR_terminates (n k : Color binary32) :
  exists r, forall fuel, (enough_fuel <= fuel)%nat ->
    findIOR (D := binary64) fuel n k = Some r.
Proof.
  destruct grid32 as (g & Hg & _).
  eexists. intros fuel Hfuel.
  apply findIOR_select.
  apply (ior_grid_fuel_mono _ fuel _ _ Hg Hfuel).
Qed.

Lemma preset_report_terminates (p : MetalPreset binary32) :
  exists rep, forall fuel, (enough_fuel <= fuel)%nat ->
    preset_report (D := binary64) fuel p = Some rep.
Proof.
  destruct (findIOR_terminates (preset_n p) (preset_k p)) as [r Hr].
  eexists. intros fuel Hfuel. unfold preset_report.
  rewrite (Hr fuel Hfuel). reflexivity.
Qed.
End Binary32Fitter.

(** C8: the fitter is deterministic.  For any arithmetic and any SDK
    helpers, two runs of [findIOR] on the same (n, k) that finish return the
    same value, and so do two runs of the per-preset computation of the
    report line (fitted IOR and both error scores); in binary32 every run
    with at least [enough_fuel] iterations allowed finishes. *)
Theorem findIOR_deterministic :
  (forall (F D : Type) (AF : Arith F) (AD : Arith D) (W : Widen F D)
          (K : SDK F) (n k : Color F) (fuel1 fuel2 : nat) (r1 r2 : F),
      findIOR (D := D) fuel1 n k = Some r1 ->
      findIOR (D := D) fuel2 n k = Some r2 ->
      r1 = r2)
  /\ (forall (F D : Type) (AF : Arith F) (AD : Arith D) (W : Widen F D)
             (K : SDK F) (p : MetalPreset F) (fuel1 fuel2 : nat)
             (rep1 rep2 : csv_row F D * list (Z * Z)),
         preset_report fuel1 p = Some rep1 ->
         preset_report fuel2 p = Some rep2 ->
         rep1 = rep2)
  /\ (forall (K : SDK binary32) (n k : Color binary32),
         exists r, forall fuel, (enough_fuel <= fuel)%nat ->
           findIOR (D := binary64) fuel n k = Some r)
  /\ (forall (K : SDK binary32) (p : MetalPreset binary32),
         exists rep, forall fuel, (enough_fuel <= fuel)%nat ->
           preset_report (D := binary64) fuel p = Some rep).
Proof.
  split; [| split; [| split]].
  - intros F D AF AD W K n k fuel1 fuel2 r1 r2.
    apply findIOR_fuel_indep.
  - intros F D AF AD W K p fuel1 fuel2 rep1 rep2.
    apply preset_report_fuel_indep.
  - intros K n k. apply findIOR_terminates.
  - intros K p. apply preset_report_terminates.
Qed.

Lemma findIOR_deterministic_witness :
  exists r1 r2 : binary32,
    findIOR (K := sample_sdk) (D := binary64) enough_fuel
      zero_color zero_color = Some r1
    /\ findIOR (K := sample_sdk) (D := binary64) (S enough_fuel)
         zero_color zero_color = Some r2
    /\ r1 = r2.
Proof.
  destruct (findIOR_terminates (K := sample_sdk) zero_color zero_color)
    as [r Hr].
  pose proof (Hr enough_fuel (le_n _)) as H1.
  pose proof (Hr (S enough_fuel) (le_S _ _ (le_n _))) as H2.
  exists r, r. split; [exact H1 |]. split; [exact H2 |].
  exact (proj1 findIOR_deterministic _ _ _ _ _ _ _ _ _ _ _ _ H1 H2).
Defined.

(** ** The driver: loops as sums *)

Lemma for_range_fold {S : Type} (body : Z -> S -> S) (count : nat) :
  forall (xs : Z) (s : S),
    for_range count xs body s
    = fold_left (fun s i => body i s) (zrange count xs) s.
Proof.
  induction count as [| count IH]; intros xs s; [reflexivity |].
  cbn [for_range zrange fold_left]. apply IH.
Qed.

Lemma fold_left_mapped {A B C : Type} (f : A -> C -> A) (g : B -> C)
    (l : list B) :
  forall a, fold_left f (map g l) a = fold_left (fun a x => f a (g x)) l a.
Proof.
  induction l as [| x l IH]; intros a; [reflexivity |].
  cbn [map fold_left]. apply IH.
Qed.

Lemma zrange_length (count : nat) :
  forall xs, List.length (zrange count xs) = count.
Proof.
  induction count as [| count IH]; intros xs; [reflexivity |].
  cbn [zrange List.length]. rewrite IH. reflexivity.
Qed.

Lemma angles_length {F : Type} {AF : Arith F} (N : Z) :
  List.length (angles (F := F) N) = Z.to_nat (N - 1).
Proof. unfold angles. rewrite length_map. apply zrange_length. Qed.

Section DriverSums.
Context {F D : Type} {AF : Arith F} {AD : Arith D} {W : Widen F D}
        {K : SDK F}.
Variables n k base reflection : Color F.
Local Open Scope fl_scope.

Lemma fit_sum_closed (ior : F) :
  fit_sum n k base reflection ior
  = squared_error_sum (getVRayMetallicFresnel base reflection ior)
      (getComplexFresnel n k) (angles 200).
Proof.
  unfold fit_sum, for_int, squared_error_sum, angles.
  rewrite for_range_fold, fold_left_mapped. reflexivity.
Qed.

(** The two accumulators of the plotting loop do not depend on the bitmap. *)
Lemma plot_loop_sums (N : Z) (ior : F) (count : nat) :
  forall (xs : Z) (st : plot D),
    let st' := for_range count xs (plot_sample N n k base reflection ior) st in
    vrayErrorSqr st'
    = fold_left
        (fun sum i =>
           sum + widen (lengthSqr
                          (color_sub
                             (getVRayMetallicFresnel base reflection ior
                                (of_int i / of_int N))
                             (getComplexFresnel n k (of_int i / of_int N)))))
        (zrange count xs) (vrayErrorSqr st)
    /\ oleErrorSqr st'
       = fold_left
           (fun sum i =>
              sum + widen (lengthSqr
                             (color_sub
                                (getOleMetallicFresnel base reflection
                                   (of_int i / of_int N))
                                (getComplexFresnel n k (of_int i / of_int N)))))
           (zrange count xs) (oleErrorSqr st).
Proof.
  induction count as [| count IH]; intros xs st; [split; reflexivity |].
  cbn zeta in *. cbn [for_range zrange fold_left].
  destruct (IH (xs + 1)%Z (plot_sample N n k base reflection ior xs st))
    as [Hv Ho].
  rewrite Hv, Ho. split; reflexivity.
Qed.

Lemma plot_loop_closed (ior : F) (b : list (Z * Z)) :
  let st := for_int 1 1600 (plot_sample 1600 n k base reflection ior)
              (mkPlot b (widen (lit 0 1)) (widen (lit 0 1))) in
  vrayErrorSqr st
  = squared_error_sum (getVRayMetallicFresnel base reflection ior)
      (getComplexFresnel n k) (angles 1600)
  /\ oleErrorSqr st
     = squared_error_sum (getOleMetallicFresnel base reflection)
         (getComplexFresnel n k) (angles 1600).
Proof.
  cbn zeta. unfold for_int, squared_error_sum, angles.
  rewrite !fold_left_mapped.
  apply (plot_loop_sums 1600 ior (Z.to_nat (1600 - 1)) 1%Z
           (mkPlot b (widen (lit 0 1)) (widen (lit 0 1)))).
Qed.
End DriverSums.

Lemma preset_report_closed {F D : Type} {AF : Arith F} {AD : Arith D}
    {W : Widen F D} {K : SDK F} (fuel : nat) (p : MetalPreset F)
    (row : csv_row F D) (b : list (Z * Z)) :
  preset_report fuel p = Some (row, b) ->
  exists ior,
    findIOR (D := D) fuel (preset_n p) (preset_k p) = Some ior
    /\ row_ior row = ior
    /\ row_name row = preset_name p
    /\ row_vrayError row = vrayError_driver (preset_n p) (preset_k p) ior
    /\ row_oleError row = oleError_driver (preset_n p) (preset_k p).
Proof.
  unfold preset_report. intros H.
  destruct (findIOR fuel (preset_n p) (preset_k p)) as [ior |];
    [| discriminate H].
  exists ior. split; [reflexivity |].
  change (bwidth * 2)%Z with 1600%Z in H.
  destruct (plot_loop_closed (D := D) (preset_n p) (preset_k p)
              (getComplexFresnel (preset_n p) (preset_k p) (lit 1 1))
              (getComplexFresnel (preset_n p) (preset_k p) (lit 0 1))
              ior []) as [Hv Ho].
  cbn zeta in Hv, Ho. revert H Hv Ho.
  generalize (for_int 1 1600
                (plot_sample 1600 (preset_n p) (preset_k p)
                   (getComplexFresnel (preset_n p) (preset_k p) (lit 1 1))
                   (getComplexFresnel (preset_n p) (preset_k p) (lit 0 1))
                   ior)
                (mkPlot [] (widen (lit 0 1)) (widen (lit 0 1)))) as st.
  intros st H Hv Ho.
  injection H as <- _. cbn [row_ior row_name row_vrayError row_oleError].
  unfold vrayError_driver, oleError_driver. rewrite Hv, Ho.
  repeat split; reflexivity.
Qed.

(** ** The driver: error scores and report *)

Lemma silver_scores_differ :
  oleError_driver (D := binary64) (preset_n silver) (preset_k silver)
  <> referenceRMSE_spec (preset_n silver) (preset_k silver).
Proof. vm_compute. discriminate. Qed.

(** C6, counterexample: for Silver the reference score the driver reports
    (1599 angles xs/1600, sum divided by 1600) differs from the score over
    the 199 angles xs/200 of the fitter divided by the sample count. *)
Lemma reference_score_not_over_fitter_samples :
  ~ (forall (K : SDK binary32) (p : MetalPreset binary32)
            (row : csv_row binary32 binary64) (b : list (Z * Z)),
        In p metalPresets ->
        preset_report enough_fuel p = Some (row, b) ->
        row_oleError row = referenceRMSE_spec (preset_n p) (preset_k p)).
Proof.
  intros H.
  destruct (preset_report_terminates (K := sample_sdk) silver)
    as [[row b] Hrep].
  specialize (Hrep enough_fuel (le_n _)).
  pose proof (H sample_sdk silver row b (or_introl eq_refl) Hrep) as E.
  destruct (preset_report_closed enough_fuel silver row b Hrep)
    as (ior & _ & _ & _ & _ & Ho).
  apply silver_scores_differ. rewrite <- Ho. exact E.
Qed.

(** C6, amended: for every preset the driver recomputes both scores over its
    own 1599 angles xs/1600 (xs = 1 .. 1599): oleError is the square root of
    the sum of squared differences between the reference approximation and
    the physical model divided by 1600, and vrayError is the square root of
    the like sum for the production approximation at the fitted IOR divided
    by 1600.  The sweep of the fitter sums over the 199 angles xs/200, and
    its winning sum is not used for the score. *)
Theorem error_scores_driver (F D : Type) (AF : Arith F) (AD : Arith D)
    (W : Widen F D) (K : SDK F) (fuel : nat) (p : MetalPreset F)
    (row : csv_row F D) (b : list (Z * Z)) :
  preset_report fuel p = Some (row, b) ->
  let n := preset_n p in
  let k := preset_k p in
  let base := getComplexFresnel n k (lit 1 1) in
  let reflection := getComplexFresnel n k (lit 0 1) in
  exists ior,
    findIOR (D := D) fuel n k = Some ior
    /\ row_oleError row
       = fsqrt (squared_error_sum (getOleMetallicFresnel base reflection)
                  (getComplexFresnel n k) (angles 1600)
                / widen (of_int 1600 : F))%fl
    /\ row_vrayError row
       = fsqrt (squared_error_sum (getVRayMetallicFresnel base reflection ior)
                  (getComplexFresnel n k) (angles 1600)
                / widen (of_int 1600 : F))%fl
    /\ (forall ior' : F,
           fit_sum (D := D) n k base reflection ior'
           = squared_error_sum (getVRayMetallicFresnel base reflection ior')
               (getComplexFresnel n k) (angles 200))
    /\ Z.of_nat (List.length (angles (F := F) 1600)) = 1599%Z
    /\ Z.of_nat (List.length (angles (F := F) 200)) = 199%Z.
Proof.
  intros Hrep n k base reflection.
  destruct (preset_report_closed fuel p row b Hrep)
    as (ior & Hior & _ & _ & Hv & Ho).
  exists ior. split; [exact Hior |].
  split; [exact Ho |]. split; [exact Hv |].
  split; [intros ior'; apply fit_sum_closed |].
  split; rewrite angles_length; reflexivity.
Qed.

Lemma error_scores_driver_witness :
  exists (row : csv_row binary32 binary64) (ior : binary32),
    findIOR (K := sample_sdk) (D := binary64) enough_fuel
      (preset_n silver) (preset_k silver) = Some ior
    /\ row_oleError row
       = oleError_driver (preset_n silver) (preset_k silver).
Proof.
  destruct (preset_report_terminates (K := sample_sdk) silver)
    as [[row b] Hrep].
  destruct (error_scores_driver _ _ _ _ _ sample_sdk enough_fuel silver row b
              (Hrep enough_fuel (le_n _)))
    as (ior & Hior & Ho & _).
  exists row, ior. split; [exact Hior | exact Ho].
Defined.

Lemma nth_error_skipn_cons {A : Type} (l : list A) :
  forall (i : nat) (x : A),
    nth_error l i = Some x -> skipn i l = x :: skipn (S i) l.
Proof.
  induction l as [| y l IH]; intros [| i] x H; try discriminate H.
  - injection H as ->. reflexivity.
  - cbn [nth_error] in H. cbn [skipn]. rewrite (IH i x H). reflexivity.
Qed.

Lemma preset_report_name {F D : Type} {AF : Arith F} {AD : Arith D}
    {W : Widen F D} {K : SDK F} (fuel : nat) (p : MetalPreset F)
    (row : csv_row F D) (b : list (Z * Z)) :
  preset_report fuel p = Some (row, b) -> row_name row = preset_name p.
Proof.
  intros H. destruct (preset_report_closed fuel p row b H)
    as (ior & _ & _ & Hname & _).
  exact Hname.
Qed.

Lemma report_names {F D : Type} {AF : Arith F} {AD : Arith D}
    {W : Widen F D} {K : SDK F} (fuel : nat) (ps : list (MetalPreset F))
    (rows : list (csv_row F D)) :
  Forall2 (fun p row => exists b, preset_report fuel p = Some (row, b))
    ps rows ->
  map (@row_name F D) rows = map (@preset_name F) ps.
Proof.
  intros H. induction H as [| p row ps rs [b Hrep] _ IH]; [reflexivity |].
  cbn [map]. rewrite IH, (preset_report_name _ _ _ _ Hrep). reflexivity.
Qed.

Section Binary32Driver.
Context {K : SDK binary32}.

(** The loop over the presets, started at index [idx] with [count] presets
    left: every remaining preset yields one record, in table order. *)
Lemma render_loop (fp : bool) (ps : list (MetalPreset binary32))
    (count : nat) :
  forall (idx : nat) (w : World binary32 binary64),
    presets w = ps -> (idx + count = List.length ps)%nat ->
    exists w' rows,
      for_range count (Z.of_nat idx)
        (fun presetIdx ow =>
           match ow with
           | None => None
           | Some w => render_preset enough_fuel fp presetIdx w
           end)
        (Some w) = Some w'
      /\ presets w' = ps
      /\ Forall2 (fun p row => exists b,
                    preset_report enough_fuel p = Some (row, b))
           (skipn idx ps) rows
      /\ csv w' = (if fp then csv w ++ map Row rows else csv w).
Proof.
  induction count as [| count IH]; intros idx w Hps Hlen.
  - exists w, []. split; [reflexivity |]. split; [exact Hps |]. split.
    + rewrite skipn_all2 by lia. constructor.
    + cbn [map]. destruct fp; [rewrite app_nil_r |]; reflexivity.
  - destruct (nth_error ps idx) as [p |] eqn:Hp.
    2:{ apply nth_error_None in Hp. lia. }
    destruct (preset_report_terminates p) as [[row b] Hrep].
    specialize (Hrep enough_fuel (le_n _)).
    cbn [for_range]. unfold render_preset at 2.
    rewrite Nat2Z.id, Hps, Hp, Hrep.
    replace (Z.of_nat idx + 1)%Z with (Z.of_nat (S idx)) by lia.
    destruct (IH (S idx)
                (mkWorld ps b (if fp then csv w ++ [Row row] else csv w))
                eq_refl ltac:(lia))
      as (w' & rows & Hrun & Hps' & Hrows & Hcsv).
    exists w', (row :: rows). split; [exact Hrun |].
    split; [exact Hps' |]. split.
    + rewrite (nth_error_skipn_cons ps idx p Hp).
      constructor; [exists b; exact Hrep | exact Hrows].
    + rewrite Hcsv. cbn [csv map]. destruct fp; [| reflexivity].
      rewrite <- app_assoc. reflexivity.
Qed.
End Binary32Driver.

(** C9, counterexample: when [fopen] fails ([fp] is null) the loop runs over
    the fifteen presets but writes no record. *)
Lemma renderCycle_no_record_without_file :
  ~ (forall (K : SDK binary32) (fp : bool) (w w' : World binary32 binary64),
        presets w = metalPresets ->
        renderCycle enough_fuel fp w = Some w' ->
        count_rows (csv w') = (count_rows (csv w) + 15)%nat).
Proof.
  intros H.
  destruct (render_loop (K := sample_sdk) false metalPresets 15 0
              (mkWorld metalPresets [] []) eq_refl eq_refl)
    as (w' & rows & Hrun & _ & _ & Hcsv).
  specialize (H sample_sdk false (mkWorld metalPresets [] []) w' eq_refl Hrun).
  rewrite Hcsv in H. discriminate H.
Qed.

(** C9, amended: the driver goes through the preset table in table order and
    computes exactly one record per preset, fifteen in all, each carrying the
    name of its preset; when the report file could be opened these records
    are written in that order after the header line, otherwise nothing is
    written; the preset table is left unchanged in both cases. *)
Theorem renderCycle_report (K : SDK binary32) (fp : bool)
    (w : World binary32 binary64) :
  presets w = metalPresets ->
  exists w' rows,
    renderCycle enough_fuel fp w = Some w'
    /\ presets w' = presets w
    /\ Forall2 (fun p row => exists b,
                  preset_report enough_fuel p = Some (row, b))
         metalPresets rows
    /\ map (@row_name binary32 binary64) rows
       = map (@preset_name binary32) metalPresets
    /\ List.length rows = 15%nat
    /\ csv w' = (if fp then csv w ++ Header :: map Row rows else csv w).
Proof.
  intros Hps.
  destruct (render_loop fp metalPresets 15 0
              (mkWorld (presets w) (buf w)
                 (if fp then csv w ++ [Header] else csv w))
              Hps eq_refl)
    as (w' & rows & Hrun & Hps' & Hrows & Hcsv).
  exists w', rows. split; [exact Hrun |].
  split; [congruence |]. cbn [skipn] in Hrows. split; [exact Hrows |].
  split; [| split].
  - exact (report_names _ _ _ Hrows).
  - rewrite <- (Forall2_length Hrows). reflexivity.
  - rewrite Hcsv. cbn [csv]. destruct fp; [| reflexivity].
    rewrite <- app_assoc. reflexivity.
Qed.

Lemma renderCycle_report_witness :
  exists w' rows,
    renderCycle (K := sample_sdk) enough_fuel true
      (mkWorld metalPresets [] [] : World binary32 binary64) = Some w'
    /\ presets w' = metalPresets
    /\ csv w' = Header :: map Row rows.
Proof.
  destruct (renderCycle_report sample_sdk true (mkWorld metalPresets [] [])
              eq_refl)
    as (w' & rows & Hrun & Hps & _ & _ & _ & Hcsv).
  exists w', rows. split; [exact Hrun |]. split; [exact Hps | exact Hcsv].
Defined.

(** ** The fitter: which candidate wins *)

(** In exact arithmetic the retained best is the least sum seen so far. *)
Section ExactSelection.
Context {K : SDK xreal}.
Variables n k base reflection : Color xreal.
Local Open Scope R_scope.

Lemma select_min_exact (g : list xreal) :
  forall (st : fit xreal) (b0 : R),
    bestResult st = Some b0 ->
    (forall q, In q g -> exists e, fit_sum n k base reflection q = Some e) ->
    exists b',
      bestResult (select n k base reflection g st) = Some b'
      /\ b' <= b0
      /\ forall q, In q g ->
           exists e, fit_sum n k base reflection q = Some e /\ b' <= e.
Proof.
  induction g as [| x g IH]; intros st b0 Hb Hdef.
  - exists b0. split; [exact Hb |]. split; [lra | intros q []].
  - destruct (Hdef x (or_introl eq_refl)) as [e He].
    assert (Hstep : exists b1,
               bestResult (fit_step n k base reflection x st) = Some b1
               /\ b1 <= b0 /\ b1 <= e).
    { unfold fit_step. rewrite He, Hb. cbn [widen xreal_widen fltb xreal_arith xltb].
      destruct (Rlt_dec e b0) as [Hlt | Hge].
      - exists e. cbn [bestResult narrow xreal_widen]. repeat split; lra.
      - exists b0. repeat split; [exact Hb | lra | lra]. }
    destruct Hstep as (b1 & Hb1 & Hle0 & Hle1).
    destruct (IH (fit_step n k base reflection x st) b1 Hb1
                (fun q Hq => Hdef q (or_intror Hq)))
      as (b' & Hb' & Hle & Hall).
    exists b'. split; [exact Hb' |]. split; [lra |].
    intros q [<- | Hq].
    + exists e. split; [exact He | lra].
    + apply Hall, Hq.
Qed.

Lemma xltb_true (a b : R) : xltb (Some a) (Some b) = true -> a < b.
Proof.
  unfold xltb. destruct (Rlt_dec a b); [trivial | discriminate].
Qed.

Lemma xltb_false (a b : R) : xltb (Some a) (Some b) = false -> b <= a.
Proof.
  unfold xltb. destruct (Rlt_dec a b); [discriminate | lra].
Qed.
End ExactSelection.

Lemma last_cons_default {A : Type} (l : list A) :
  forall a d d' : A, last (a :: l) d = last (a :: l) d'.
Proof.
  induction l as [| b l IH]; intros a d d'; [reflexivity |].
  change (last (a :: b :: l) d) with (last (b :: l) d).
  change (last (a :: b :: l) d') with (last (b :: l) d').
  apply IH.
Qed.

Section EqualSums.
Context {F D : Type} {AF : Arith F} {AD : Arith D} {W : Widen F D}
        {K : SDK F}.
Variables n k base reflection : Color F.
Local Open Scope fl_scope.

(** When every candidate has the same sum [s] and the cast of [s] to float
    rounds up, each candidate replaces the one before it and the last one
    is returned. *)
Lemma select_equal_sums (s : D) (g : list F) :
  (forall q, fit_sum n k base reflection q = s) ->
  (s <? widen (narrow s)) = true ->
  forall (x : F) (st : fit F),
    (s <? widen (bestResult st)) = true ->
    select n k base reflection (x :: g) st
    = mkFit (last (x :: g) x) (narrow s).
Proof.
  intros Hs Hup. induction g as [| y g IH]; intros x st Hst.
  - cbn [select fold_left last]. rewrite <- (Hs x).
    apply fit_step_better. rewrite (Hs x). exact Hst.
  - change (select n k base reflection (x :: y :: g) st)
      with (select n k base reflection (y :: g)
              (fit_step n k base reflection x st)).
    rewrite IH.
    + change (last (x :: y :: g) x) with (last (y :: g) x).
      rewrite (last_cons_default g y y x). reflexivity.
    + assert (Hx : fit_step n k base reflection x st = mkFit x (narrow s)).
      { rewrite <- (Hs x). apply fit_step_better. rewrite (Hs x). exact Hst. }
      rewrite Hx. exact Hup.
Qed.
End EqualSums.

(** With a coefficient that does not depend on the index, neither does the
    sum. *)
Lemma flat_fit_sum {F D : Type} {AF : Arith F} {AD : Arith D} {W : Widen F D}
    (f0 : F) (n k base reflection : Color F) (q q' : F) :
  fit_sum (K := flat_sdk f0) n k base reflection q
  = fit_sum (K := flat_sdk f0) n k base reflection q'.
Proof. reflexivity. Qed.

(** For Silver and the coefficient 0.25f the common sum is below 1e18 and
    its cast to float rounds up, by evaluation. *)
Lemma flat_silver_sum_rounds_up :
  ((flat_silver_sum <? widen (bestResult (fit_init (F := binary32))))%fl
   && (flat_silver_sum <? widen (narrow flat_silver_sum : binary32))%fl)
  = true.
Proof. vm_compute. reflexivity. Qed.

Lemma grid_ends_ok_sound (o : option (list binary32)) :
  grid_ends_ok o = true ->
  exists (x : binary32) (g : list binary32),
    o = Some (x :: g) /\ lt32 x (last (x :: g) x) = true.
Proof.
  destruct o as [[| x g] |]; try discriminate.
  intros H. exists x, g. split; [reflexivity | exact H].
Qed.

Lemma grid32_ends :
  exists (x : binary32) (g : list binary32),
    ior_grid enough_fuel (lit 1001 1000) = Some (x :: g)
    /\ lt32 x (last (x :: g) x) = true.
Proof. apply grid_ends_ok_sound. vm_compute. reflexivity. Qed.

(** Hence every candidate replaces the one before it, and the last one is
    returned. *)
Lemma findIOR_flat_silver :
  exists (x : binary32) (g : list binary32),
    ior_grid enough_fuel (lit 1001 1000) = Some (x :: g)
    /\ lt32 x (last (x :: g) x) = true
    /\ findIOR (K := flat_sdk (lit 1 4)) (D := binary64) enough_fuel
         (preset_n silver) (preset_k silver)
       = Some (last (x :: g) x).
Proof.
  destruct grid32_ends as (x & g & Hg & Hlt).
  exists x, g. split; [exact Hg |]. split; [exact Hlt |].
  rewrite (findIOR_select (K := flat_sdk (lit 1 4)) _ _ _ _ Hg).
  pose proof flat_silver_sum_rounds_up as Hs.
  apply andb_prop in Hs as [Hinit Hup].
  rewrite (select_equal_sums (K := flat_sdk (lit 1 4)) _ _ _ _
             flat_silver_sum g
             (fun q => flat_fit_sum _ _ _ _ _ q (lit 1001 1000))
             Hup x fit_init Hinit).
  reflexivity.
Qed.

(** C5, counterexample: a later candidate with an equal sum does replace
    the kept one.  The kept best is stored as [float(sum)]; when the cast
    rounds up, an equal double sum is strictly below it.  For Silver, with
    SDK helpers whose Fresnel coefficient is 0.25f throughout, all 8999
    candidates have the same sum, and [findIOR] returns the last one scanned
    (the largest), not the first. *)
Lemma findIOR_later_equal_sum_wins :
  ~ (forall (K : SDK binary32) (n k : Color binary32) (g : list binary32)
            (r p : binary32),
        ior_grid enough_fuel (lit 1001 1000) = Some g ->
        findIOR (D := binary64) enough_fuel n k = Some r ->
        In p g ->
        fit_sum (D := binary64) n k (getComplexFresnel n k (lit 1 1))
          (getComplexFresnel n k (lit 0 1)) p
        = fit_sum n k (getComplexFresnel n k (lit 1 1))
            (getComplexFresnel n k (lit 0 1)) r ->
        lt32 p r = false)
  /\ exists (x : binary32) (g : list binary32),
       ior_grid enough_fuel (lit 1001 1000) = Some (x :: g)
       /\ lt32 x (last (x :: g) x) = true
       /\ findIOR (K := flat_sdk (lit 1 4)) (D := binary64) enough_fuel
            (preset_n silver) (preset_k silver)
          = Some (last (x :: g) x).
Proof.
  split; [| exact findIOR_flat_silver].
  intros H. destruct findIOR_flat_silver as (x & g & Hg & Hlt & Hfind).
  rewrite (H (flat_sdk (lit 1 4)) _ _ _ _ x Hg Hfind (or_introl eq_refl)
             (flat_fit_sum _ _ _ _ _ _ _)) in Hlt.
  discriminate Hlt.
Qed.

Section KeptCandidate.
Context {F D : Type} {AF : Arith F} {AD : Arith D} {W : Widen F D}
        {K : SDK F}.
Variables n k : Color F.
Local Open Scope fl_scope.

Lemma findIOR_select_any (fuel : nat) (g : list F) :
  ior_grid fuel (lit 1001 1000) = Some g ->
  findIOR (D := D) fuel n k
  = Some (bestIOR (select n k (getComplexFresnel n k (lit 1 1))
                     (getComplexFresnel n k (lit 0 1)) g fit_init)).
Proof.
  intros Hg. unfold findIOR.
  rewrite sweep_grid with (g := g) by exact Hg. reflexivity.
Qed.

Lemma findIOR_kept_candidate (fuel : nat) (g : list F) :
  ior_grid fuel (lit 1001 1000) = Some g ->
  let base := getComplexFresnel n k (lit 1 1) in
  let reflection := getComplexFresnel n k (lit 0 1) in
  (findIOR (D := D) fuel n k = Some (lit (-1) 1)
   /\ forall q, In q g ->
        (fit_sum (D := D) n k base reflection q
         <? widen (bestResult fit_init)) = false)
  \/ exists g1 p g2,
       g = g1 ++ p :: g2
       /\ findIOR (D := D) fuel n k = Some p
       /\ (fit_sum (D := D) n k base reflection p
           <? widen (bestResult (select n k base reflection g1 fit_init)))
          = true
       /\ forall q, In q g2 ->
            (fit_sum (D := D) n k base reflection q
             <? widen (narrow (fit_sum (D := D) n k base reflection p)))
            = false.
Proof.
  intros Hg base reflection. rewrite (findIOR_select_any _ _ Hg).
  fold base. fold reflection.
  destruct (select_cases n k base reflection g fit_init)
    as [[Hsame Hall] | (g1 & p & g2 & Hsplit & Hsel & Hp & Hall)].
  - left. rewrite Hsame. split; [reflexivity | exact Hall].
  - right. exists g1, p, g2. rewrite Hsel.
    repeat split; assumption.
Qed.

(** A kept candidate [p] does not survive a later candidate [q] with the
    same sum when the cast of that sum to float rounds up: the result is
    then [q] or another candidate scanned after [p]. *)
Lemma findIOR_displaced (fuel : nat) (g1 g2 g3 : list F) (p q : F) :
  ior_grid fuel (lit 1001 1000) = Some (g1 ++ p :: g2 ++ q :: g3) ->
  let base := getComplexFresnel n k (lit 1 1) in
  let reflection := getComplexFresnel n k (lit 0 1) in
  (fit_sum (D := D) n k base reflection p
   <? widen (bestResult (select n k base reflection g1 fit_init))) = true ->
  fit_sum (D := D) n k base reflection q
  = fit_sum (D := D) n k base reflection p ->
  (fit_sum (D := D) n k base reflection p
   <? widen (narrow (fit_sum (D := D) n k base reflection p))) = true ->
  exists r, findIOR (D := D) fuel n k = Some r /\ In r (g2 ++ q :: g3).
Proof.
  intros Hg base reflection Hp Hq Hup. rewrite (findIOR_select_any _ _ Hg).
  fold base. fold reflection.
  eexists. split; [reflexivity |].
  rewrite select_app.
  change (select n k base reflection (p :: g2 ++ q :: g3)
            (select n k base reflection g1 fit_init))
    with (select n k base reflection (g2 ++ q :: g3)
            (fit_step n k base reflection p
               (select n k base reflection g1 fit_init))).
  rewrite (fit_step_better _ _ _ _ _ _ Hp).
  destruct (select_cases n k base reflection (g2 ++ q :: g3)
              (mkFit p (narrow (fit_sum (D := D) n k base reflection p))))
    as [[_ Hall] | (h1 & r & h2 & Hsplit & Hsel & _)].
  - assert (Hin : In q (g2 ++ q :: g3)).
    { apply in_or_app. right. left. reflexivity. }
    specialize (Hall q Hin). cbn [bestResult] in Hall.
    rewrite Hq, Hup in Hall. discriminate Hall.
  - rewrite Hsel. cbn [bestIOR]. rewrite Hsplit.
    apply in_or_app. right. left. reflexivity.
Qed.
End KeptCandidate.

(** In exact arithmetic the cast to float changes nothing, and the result
    is the earliest candidate with the least sum. *)
Lemma findIOR_earliest_minimum_exact (K : SDK xreal) (n k : Color xreal)
    (fuel : nat) (g : list xreal) :
  ior_grid fuel (lit 1001 1000) = Some g ->
  let base := getComplexFresnel n k (lit 1 1) in
  let reflection := getComplexFresnel n k (lit 0 1) in
  (forall q, In q g ->
     exists e, fit_sum (D := xreal) n k base reflection q = Some e) ->
  (findIOR (D := xreal) fuel n k = Some (lit (-1) 1)
   /\ forall q, In q g ->
        exists e, fit_sum (D := xreal) n k base reflection q = Some e
                  /\ (1000000000000000000 <= e)%R)
  \/ exists g1 p g2 e,
       g = g1 ++ p :: g2
       /\ findIOR (D := xreal) fuel n k = Some p
       /\ fit_sum (D := xreal) n k base reflection p = Some e
       /\ (forall q, In q g1 ->
             exists e', fit_sum (D := xreal) n k base reflection q
                        = Some e' /\ (e < e')%R)
       /\ (forall q, In q g2 ->
             exists e', fit_sum (D := xreal) n k base reflection q
                        = Some e' /\ (e <= e')%R).
Proof.
  intros Hg base reflection Hdef.
  rewrite (findIOR_select_any n k _ _ Hg). fold base. fold reflection.
  destruct (select_cases n k base reflection g fit_init)
    as [[Hsame Hall] | (g1 & p & g2 & Hsplit & Hsel & Hp & Hall)].
  + left. rewrite Hsame. split; [reflexivity |].
    intros q Hq. destruct (Hdef q Hq) as [e He].
    exists e. split; [exact He |].
    specialize (Hall q Hq). rewrite He in Hall.
    apply xltb_false in Hall. lra.
  + right.
    assert (Hdef1 : forall q, In q g1 ->
              exists e, fit_sum (D := xreal) n k base reflection q = Some e).
    { intros q Hq. apply Hdef. rewrite Hsplit. apply in_or_app. left.
      exact Hq. }
    destruct (Hdef p) as [e He].
    { rewrite Hsplit. apply in_or_app. right. left. reflexivity. }
    assert (Hb0 : bestResult (fit_init (F := xreal))
                  = Some (1000000000000000000 / 1)%R) by reflexivity.
    destruct (select_min_exact n k base reflection g1 fit_init
                (1000000000000000000 / 1)%R Hb0 Hdef1)
      as (b1 & Hb1 & _ & Hmin).
    rewrite Hb1, He in Hp. apply xltb_true in Hp.
    exists g1, p, g2, e. rewrite Hsel.
    split; [exact Hsplit |]. split; [reflexivity |]. split; [exact He |].
    split.
    * intros q Hq. destruct (Hmin q Hq) as (e' & He' & Hle).
      exists e'. split; [exact He' | lra].
    * intros q Hq. destruct (Hdef q) as [e' He'].
      { rewrite Hsplit. apply in_or_app. right. right. exact Hq. }
      exists e'. split; [exact He' |].
      specialize (Hall q Hq). rewrite He', He in Hall.
      apply xltb_false in Hall. exact Hall.
Qed.

(** C5, amended: [findIOR] scans the candidates in increasing order and
    keeps a candidate exactly when its double sum is strictly below the kept
    best, which is stored narrowed to float (1e18f at the start).  For any
    arithmetic it returns -1 when no candidate's sum compares below 1e18,
    and otherwise the last candidate that was strictly below the kept best
    when scanned; no candidate after it compares below its sum narrowed to
    float.  A kept candidate is replaced by a later candidate with an equal
    sum when the cast of that sum to float rounds up.  In exact arithmetic,
    where the cast changes nothing, and when every candidate's sum is
    defined, the result is the earliest-scanned candidate whose sum attains
    the minimum over the grid (or -1 when every sum is at least 1e18). *)
Theorem findIOR_tie_break :
  (forall (F D : Type) (AF : Arith F) (AD : Arith D) (W : Widen F D)
          (K : SDK F) (n k : Color F) (fuel : nat) (g : list F),
      ior_grid fuel (lit 1001 1000) = Some g ->
      let base := getComplexFresnel n k (lit 1 1) in
      let reflection := getComplexFresnel n k (lit 0 1) in
      (findIOR (D := D) fuel n k = Some (lit (-1) 1)
       /\ forall q, In q g ->
            (fit_sum (D := D) n k base reflection q
             <? widen (bestResult fit_init))%fl = false)
      \/ exists g1 p g2,
           g = g1 ++ p :: g2
           /\ findIOR (D := D) fuel n k = Some p
           /\ (fit_sum (D := D) n k base reflection p
               <? widen (bestResult
                           (select n k base reflection g1 fit_init)))%fl
              = true
           /\ forall q, In q g2 ->
                (fit_sum (D := D) n k base reflection q
                 <? widen (narrow (fit_sum (D := D) n k base reflection p)))%fl
                = false)
  /\ (forall (F D : Type) (AF : Arith F) (AD : Arith D) (W : Widen F D)
             (K : SDK F) (n k : Color F) (fuel : nat) (g1 g2 g3 : list F)
             (p q : F),
         ior_grid fuel (lit 1001 1000) = Some (g1 ++ p :: g2 ++ q :: g3) ->
         let base := getComplexFresnel n k (lit 1 1) in
         let reflection := getComplexFresnel n k (lit 0 1) in
         (fit_sum (D := D) n k base reflection p
          <? widen (bestResult (select n k base reflection g1 fit_init)))%fl
         = true ->
         fit_sum (D := D) n k base reflection q
         = fit_sum (D := D) n k base reflection p ->
         (fit_sum (D := D) n k base reflection p
          <? widen (narrow (fit_sum (D := D) n k base reflection p)))%fl
         = true ->
         exists r, findIOR (D := D) fuel n k = Some r
                   /\ In r (g2 ++ q :: g3))
  /\ (forall (K : SDK xreal) (n k : Color xreal) (fuel : nat)
             (g : list xreal),
         ior_grid fuel (lit 1001 1000) = Some g ->
         let base := getComplexFresnel n k (lit 1 1) in
         let reflection := getComplexFresnel n k (lit 0 1) in
         (forall q, In q g ->
            exists e, fit_sum (D := xreal) n k base reflection q = Some e) ->
         (findIOR (D := xreal) fuel n k = Some (lit (-1) 1)
          /\ forall q, In q g ->
               exists e, fit_sum (D := xreal) n k base reflection q = Some e
                         /\ (1000000000000000000 <= e)%R)
         \/ exists g1 p g2 e,
              g = g1 ++ p :: g2
              /\ findIOR (D := xreal) fuel n k = Some p
              /\ fit_sum (D := xreal) n k base reflection p = Some e
              /\ (forall q, In q g1 ->
                    exists e', fit_sum (D := xreal) n k base reflection q
                               = Some e' /\ (e < e')%R)
              /\ (forall q, In q g2 ->
                    exists e', fit_sum (D := xreal) n k base reflection q
                               = Some e' /\ (e <= e')%R)).
Proof.
  split; [| split].
  - intros F D AF AD W K n k fuel g Hg.
    apply findIOR_kept_candidate. exact Hg.
  - intros F D AF AD W K n k fuel g1 g2 g3 p q Hg.
    apply findIOR_displaced. exact Hg.
  - intros K n k fuel g Hg. apply findIOR_earliest_minimum_exact. exact Hg.
Qed.

(** ** Exact arithmetic: the sweep finishes and its sums are defined *)

Lemma for_range_invariant {S : Type} (P : S -> Prop) (body : Z -> S -> S)
    (count : nat) :
  forall (lo : Z) (s : S),
    (forall i s', (lo <= i < lo + Z.of_nat count)%Z -> P s' -> P (body i s')) ->
    P s -> P (for_range count lo body s).
Proof.
  induction count as [| count IH]; intros lo s Hbody Hs; [exact Hs |].
  cbn [for_range]. apply IH.
  - intros i s' Hi. apply Hbody. lia.
  - apply Hbody; [lia | exact Hs].
Qed.

Section ExactGrid.
Local Open Scope R_scope.

Lemma ior_grid_exact (m : nat) :
  forall x : R,
    10 - x <= IZR (Z.of_nat m) / 1000 ->
    exists g : list xreal,
      ior_grid (S m) (Some x) = Some g
      /\ forall q, In q g -> exists v, q = Some v /\ x <= v < 10.
Proof.
  induction m as [| m IH]; intros x Hx.
  - cbn [ior_grid fltb lit xreal_arith xltb].
    destruct (Rlt_dec x (10 / 1)) as [Hlt | _].
    + cbn [Z.of_nat] in Hx. lra.
    + exists []. split; [reflexivity | intros q []].
  - rewrite Nat2Z.inj_succ, succ_IZR in Hx.
    change (ior_grid (S (S m)) (Some x))
      with (if xltb (Some x) (Some (10 / 1))
            then option_map (cons (Some x))
                   (ior_grid (S m) (Some (x + 1 / 1000)))
            else Some []).
    unfold xltb. destruct (Rlt_dec x (10 / 1)) as [Hlt | _].
    + destruct (IH (x + 1 / 1000)) as (g & Hg & Hall); [lra |].
      rewrite Hg. exists (Some x :: g). split; [reflexivity |].
      intros q [<- | Hq].
      * exists x. split; [reflexivity | lra].
      * destruct (Hall q Hq) as (v & -> & Hv). exists v.
        split; [reflexivity | lra].
    + exists []. split; [reflexivity | intros q []].
Qed.

Lemma grid_exact :
  exists g : list xreal,
    ior_grid enough_fuel (lit 1001 1000) = Some g
    /\ forall q, In q g -> exists v, q = Some v /\ 1 < v < 10.
Proof.
  assert (Hfuel : enough_fuel = S (Z.to_nat 8999)).
  { unfold enough_fuel. rewrite <- Z2Nat.inj_succ by lia. reflexivity. }
  rewrite Hfuel.
  destruct (ior_grid_exact (Z.to_nat 8999) (1001 / 1000)) as (g & Hg & Hall).
  { rewrite Z2Nat.id by lia. lra. }
  exists g. split; [exact Hg |].
  intros q Hq. destruct (Hall q Hq) as (v & -> & Hv).
  exists v. split; [reflexivity | lra].
Qed.

Lemma lengthSqr_sub_defined (a b : Color xreal) :
  color_defined a -> color_defined b ->
  exists e, lengthSqr (color_sub a b) = Some e.
Proof.
  intros (a1 & a2 & a3 & ->) (b1 & b2 & b3 & ->).
  eexists. reflexivity.
Qed.

Lemma getComplexFresnel_defined (n1 n2 n3 k1 k2 k3 c : R) :
  0 < n1 -> 0 < n2 -> 0 < n3 -> 0 <= c ->
  color_defined
    (getComplexFresnel (mkColor (Some n1) (Some n2) (Some n3))
       (mkColor (Some k1) (Some k2) (Some k3)) (Some c)).
Proof.
  intros H1 H2 H3 Hc.
  assert (Hch : forall n k, 0 < n ->
            exists w, complexFresnel (Some n : xreal) (Some k) (Some c)
                      = Some w).
  { intros n k Hn.
    destruct (complexFresnel_defined n k c) as (w & Hw & _).
    - intros E. apply rs_den_zero_iff in E; lra.
    - pose proof (rp_den_ge_1 n k c ltac:(lra) Hc). lra.
    - exists w. exact Hw. }
  destruct (Hch n1 k1 H1) as [w1 Hw1].
  destruct (Hch n2 k2 H2) as [w2 Hw2].
  destruct (Hch n3 k3 H3) as [w3 Hw3].
  exists w1, w2, w3. unfold getComplexFresnel. cbn [cr cg cb].
  rewrite Hw1, Hw2, Hw3. reflexivity.
Qed.

Lemma sample_coeff_defined (ior x : R) :
  -1 < ior -> 0 <= x <= 1 ->
  exists f, fresnel_coeff (K := sample_sdk) (Some ior) (Some x) = Some f.
Proof.
  intros Hior Hx. unfold fresnel_coeff.
  cbn [getFresnelCoeff getRefractDir sample_sdk fst dot3 vx vy vz
       fadd fsub fmul fdiv fopp fsqrt of_int lit xreal_arith xlift2 xsqrt].
  destruct (Rlt_dec (1 / 1 - x * x) 0) as [Hneg | _]; [nra |].
  cbn [xlift2 option_map]. rewrite xdiv_defined by lra.
  eexists. reflexivity.
Qed.

Lemma sample_blend_defined (base reflection : Color xreal) (ior x : R) :
  color_defined base -> color_defined reflection ->
  -1 < ior -> 0 <= x <= 1 ->
  color_defined
    (getVRayMetallicFresnel (K := sample_sdk) base reflection
       (Some ior) (Some x)).
Proof.
  intros (b1 & b2 & b3 & ->) (r1 & r2 & r3 & ->) Hior Hx.
  rewrite getVRayMetallicFresnel_blend.
  destruct (sample_coeff_defined ior x Hior Hx) as [f ->].
  eexists _, _, _. reflexivity.
Qed.

Lemma sample_fit_sum_defined (n1 n2 n3 k1 k2 k3 ior : R) :
  0 < n1 -> 0 < n2 -> 0 < n3 -> -1 < ior ->
  let n := mkColor (Some n1) (Some n2) (Some n3) in
  let k := mkColor (Some k1) (Some k2) (Some k3) in
  exists e,
    fit_sum (K := sample_sdk) (D := xreal) n k
      (getComplexFresnel n k (lit 1 1)) (getComplexFresnel n k (lit 0 1))
      (Some ior) = Some e.
Proof.
  intros H1 H2 H3 Hior n k. unfold fit_sum, for_int.
  apply (for_range_invariant (fun s : xreal => exists e, s = Some e)).
  - intros i s' Hi [e ->]. unfold fit_sample.
    cbn [of_int fdiv xreal_arith]. rewrite xdiv_defined by lra.
    assert (Hx : 0 <= IZR i / 200 <= 1).
    { assert (1 <= IZR i) by (apply IZR_le; lia).
      assert (IZR i <= 199) by (apply IZR_le; lia).
      lra. }
    destruct (lengthSqr_sub_defined
                (getVRayMetallicFresnel (K := sample_sdk)
                   (getComplexFresnel n k (lit 1 1))
                   (getComplexFresnel n k (lit 0 1))
                   (Some ior) (Some (IZR i / 200)))
                (getComplexFresnel n k (Some (IZR i / 200))))
      as [d Hd].
    + apply sample_blend_defined; try assumption;
        apply getComplexFresnel_defined; try assumption; lra.
    + apply getComplexFresnel_defined; try assumption; lra.
    + rewrite Hd. eexists. reflexivity.
  - eexists. reflexivity.
Qed.
End ExactGrid.

Lemma findIOR_tie_break_witness :
  exists g : list xreal,
    ior_grid enough_fuel (lit 1001 1000) = Some g
    /\ ((findIOR (K := sample_sdk) (D := xreal) enough_fuel
           (mkColor (Some 2%R) (Some 2%R) (Some 2%R))
           (mkColor (Some 3%R) (Some 3%R) (Some 3%R)) = Some (lit (-1) 1))
        \/ exists p, In p g
             /\ findIOR (K := sample_sdk) (D := xreal) enough_fuel
                  (mkColor (Some 2%R) (Some 2%R) (Some 2%R))
                  (mkColor (Some 3%R) (Some 3%R) (Some 3%R)) = Some p).
Proof.
  destruct grid_exact as (g & Hg & Hrange).
  exists g. split; [exact Hg |].
  destruct (proj2 (proj2 findIOR_tie_break) sample_sdk
              (mkColor (Some 2%R) (Some 2%R) (Some 2%R))
              (mkColor (Some 3%R) (Some 3%R) (Some 3%R))
              enough_fuel g Hg)
    as [[Hres _] | (g1 & p & g2 & e & Hsplit & Hres & _)].
  - intros q Hq. destruct (Hrange q Hq) as (v & -> & Hv).
    apply sample_fit_sum_defined; lra.
  - left. exact Hres.
  - right. exists p. split; [| exact Hres].
    rewrite Hsplit. apply in_or_app. right. left. reflexivity.
Defined.

(** * Further properties *)

(** ** Exact arithmetic: the clamp is idle on the physical domain *)

Section ExactClamp.
Local Open Scope R_scope.

Lemma clamp_exact (v lo hi : R) :
  clamp (Some v : xreal) (Some lo) (Some hi) = Some (clampR v lo hi).
Proof.
  unfold clamp, clampR. cbn [fltb xreal_arith xltb].
  destruct (Rlt_dec v lo); [reflexivity |].
  destruct (Rlt_dec hi v); reflexivity.
Qed.

Lemma ratio_in_unit (a b : R) : 0 <= a <= b -> 0 < b -> 0 <= a / b <= 1.
Proof.
  intros [Ha Hab] Hb. split.
  - unfold Rdiv. apply Rmult_le_pos; [exact Ha |].
    left. apply Rinv_0_lt_compat. exact Hb.
  - apply (Rmult_le_reg_r b); [exact Hb |].
    unfold Rdiv. rewrite Rmult_assoc, Rinv_l by lra. lra.
Qed.

(** Both polarised reflectances lie in [0,1] as soon as n and c are not
    negative, k2 is not negative and the denominators are positive. *)
Lemma fresnel_average_unit (n k2 c : R) :
  0 <= n -> 0 <= k2 -> 0 <= c ->
  0 < n * n + k2 + 2 * n * c + c * c ->
  0 <= fresnel_average n k2 c <= 1.
Proof.
  intros Hn Hk Hc Hden. unfold fresnel_average.
  assert (Hnc : 0 <= n * c) by (apply Rmult_le_pos; assumption).
  assert (Hs : 0 <= (n * n + k2 - 2 * n * c + c * c)
                    / (n * n + k2 + 2 * n * c + c * c) <= 1).
  { apply ratio_in_unit; [| exact Hden].
    pose proof (Rle_0_sqr (n - c)) as Hsq. unfold Rsqr in Hsq.
    assert (Hnum : n * n + k2 - 2 * n * c + c * c
                   = (n - c) * (n - c) + k2) by ring.
    lra. }
  assert (Hk2c : 0 <= k2 * (c * c)).
  { apply Rmult_le_pos; [exact Hk |]. pose proof (Rle_0_sqr c) as Hsq.
    unfold Rsqr in Hsq. exact Hsq. }
  assert (Hp : 0 <= ((n * n + k2) * c * c - 2 * n * c + 1)
                    / ((n * n + k2) * c * c + 2 * n * c + 1) <= 1).
  { pose proof (Rle_0_sqr (n * c - 1)) as Hsq. unfold Rsqr in Hsq.
    pose proof (Rle_0_sqr (n * c)) as Hsq'. unfold Rsqr in Hsq'.
    assert (Hnum : (n * n + k2) * c * c - 2 * n * c + 1
                   = (n * c - 1) * (n * c - 1) + k2 * (c * c)) by ring.
    assert (Hd : (n * n + k2) * c * c + 2 * n * c + 1
                 = (n * c) * (n * c) + k2 * (c * c) + 2 * (n * c) + 1)
      by ring.
    assert (Hnd : (n * c - 1) * (n * c - 1)
                  = (n * c) * (n * c) - 2 * (n * c) + 1) by ring.
    rewrite Hnum, Hd. apply ratio_in_unit; lra. }
  lra.
Qed.
End ExactClamp.

Lemma complexFresnel_average (n k c : R) :
  (0 <= n)%R -> (0 <= c)%R -> ~ (n = 0 /\ k = 0 /\ c = 0)%R ->
  complexFresnel (Some n : xreal) (Some k) (Some c)
  = Some (fresnel_average n (k * k) c)
  /\ (0 <= fresnel_average n (k * k) c <= 1)%R.
Proof.
  intros Hn Hc Hnz.
  assert (Hs : rs_den n k c <> 0%R).
  { intros E. apply Hnz. apply rs_den_zero_iff; assumption. }
  assert (Hp : rp_den n k c <> 0%R).
  { pose proof (rp_den_ge_1 n k c Hn Hc). lra. }
  assert (Hpos : (0 < n * n + k * k + 2 * n * c + c * c)%R).
  { assert (0 <= n * c)%R by (apply Rmult_le_pos; assumption).
    pose proof (Rle_0_sqr k) as Hk. unfold Rsqr in Hk.
    unfold rs_den in Hs. nra. }
  assert (Hunit : (0 <= fresnel_average n (k * k) c <= 1)%R).
  { apply fresnel_average_unit; try assumption.
    pose proof (Rle_0_sqr k) as Hk. unfold Rsqr in Hk. exact Hk. }
  split; [| exact Hunit].
  rewrite (complexFresnel_exact _ _ _ Hs Hp).
  destruct (clamp01_exact
              (1 / 2 * (rs_num n k c / rs_den n k c
                        + rp_num n k c / rp_den n k c))%R)
    as (w & -> & _ & Hw).
  f_equal. apply Hw. exact Hunit.
Qed.

(** X1: for n >= 0 and cosTheta >= 0, not both zero together with k, the
    clamp of [complexFresnel] never cuts anything: the result is the plain
    average of the two polarised reflectances, which lies in [0,1] by
    itself.  Exact arithmetic. *)
Theorem complexFresnel_clamp_idle (n k c : R) :
  (0 <= n)%R -> (0 <= c)%R -> ~ (n = 0 /\ k = 0 /\ c = 0)%R ->
  complexFresnel (Some n : xreal) (Some k) (Some c)
  = Some (fresnel_average n (k * k) c)
  /\ (0 <= fresnel_average n (k * k) c <= 1)%R.
Proof.
  intros Hn Hc Hnz.
  assert (Hkk : (0 <= k * k)%R).
  { pose proof (Rle_0_sqr k) as Hk. unfold Rsqr in Hk. exact Hk. }
  assert (Hden : (0 < n * n + k * k + 2 * n * c + c * c)%R).
  { assert (Hs : rs_den n k c <> 0%R).
    { intros E. apply Hnz. apply rs_den_zero_iff; assumption. }
    assert (0 <= n * c)%R by (apply Rmult_le_pos; assumption).
    unfold rs_den in Hs. nra. }
  split.
  - apply complexFresnel_average; assumption.
  - apply fresnel_average_unit; assumption.
Qed.

Lemma complexFresnel_clamp_idle_witness :
  complexFresnel (Some 2%R : xreal) (Some 3%R) (Some (1 / 2)%R)
  = Some (fresnel_average 2 (3 * 3) (1 / 2)).
Proof.
  apply (complexFresnel_clamp_idle 2 3 (1 / 2)); lra.
Defined.

(** X2: at grazing incidence (cosTheta = 0) the physical model returns 1 for
    every n and k that are not both zero, so the grazing color computed by
    [findIOR] and [renderCycle] is white.  Exact arithmetic. *)
Theorem complexFresnel_grazing (n k : R) :
  (n * n + k * k <> 0)%R ->
  complexFresnel (Some n : xreal) (Some k) (lit 0 1) = Some 1%R.
Proof.
  intros Hnk. change (lit 0 1 : xreal) with (Some (0 / 1)%R).
  assert (Hs : rs_den n k (0 / 1) <> 0%R) by (unfold rs_den; lra).
  assert (Hp : rp_den n k (0 / 1) <> 0%R) by (unfold rp_den; lra).
  rewrite (complexFresnel_exact _ _ _ Hs Hp).
  destruct (clamp01_exact
              (1 / 2 * (rs_num n k (0 / 1) / rs_den n k (0 / 1)
                        + rp_num n k (0 / 1) / rp_den n k (0 / 1)))%R)
    as (w & -> & _ & Hw).
  assert (Hv : (1 / 2 * (rs_num n k (0 / 1) / rs_den n k (0 / 1)
                         + rp_num n k (0 / 1) / rp_den n k (0 / 1)) = 1)%R).
  { unfold rs_num, rs_den, rp_num, rp_den in *. field. lra. }
  rewrite Hv in Hw. f_equal. apply Hw. lra.
Qed.

Lemma complexFresnel_grazing_witness :
  complexFresnel (Some 2%R : xreal) (Some 3%R) (lit 0 1) = Some 1%R.
Proof.
  apply (complexFresnel_grazing 2 3). lra.
Defined.

(** ** Exact arithmetic: the reference approximation *)

Section ExactReference.
Local Open Scope R_scope.

Lemma le_div (a b c : R) : 0 < b -> c * b <= a -> c <= a / b.
Proof.
  intros Hb H. apply (Rmult_le_reg_r b); [exact Hb |].
  unfold Rdiv. rewrite Rmult_assoc, Rinv_l by lra. lra.
Qed.

Lemma div_le (a b c : R) : 0 < b -> a <= c * b -> a / b <= c.
Proof.
  intros Hb H. apply (Rmult_le_reg_r b); [exact Hb |].
  unfold Rdiv. rewrite Rmult_assoc, Rinv_l by lra. lra.
Qed.

Lemma clampR_099 (r : R) : 0 <= clampR r (0 / 1) (99 / 100) < 1.
Proof.
  unfold clampR. destruct (Rlt_dec r (0 / 1)); [lra |].
  destruct (Rlt_dec (99 / 100) r); lra.
Qed.

Lemma n_min_max_order (r : R) :
  0 <= r < 1 -> 0 < n_minR r <= 1 /\ 1 <= n_maxR r.
Proof.
  intros Hr. pose proof (sqrt_lt_one r Hr) as Hs. unfold n_minR, n_maxR.
  repeat split.
  - apply Rdiv_lt_0_compat; lra.
  - apply div_le; lra.
  - apply le_div; lra.
Qed.

Lemma get_nR_bounds (r g : R) :
  0 <= r < 1 -> 0 <= g <= 1 -> n_minR r <= get_nR r g <= n_maxR r.
Proof.
  intros Hr Hg. destruct (n_min_max_order r Hr) as [[_ Hmin] Hmax].
  unfold get_nR.
  assert (Hd : 0 <= n_maxR r - n_minR r) by lra.
  assert (H1 : 0 <= (1 - g) * (n_maxR r - n_minR r))
    by (apply Rmult_le_pos; lra).
  assert (H2 : 0 <= g * (n_maxR r - n_minR r))
    by (apply Rmult_le_pos; lra).
  split; lra.
Qed.

(** Between the two bounds the squared absorption index solved for is not
    negative. *)
Lemma get_k2R_nonneg (r n : R) :
  0 <= r < 1 -> n_minR r <= n <= n_maxR r -> 0 <= get_k2R r n.
Proof.
  intros Hr [Hlo Hhi]. pose proof (sqrt_lt_one r Hr) as Hs.
  assert (Hsq : r = sqrt r * sqrt r) by (symmetry; apply sqrt_sqrt; lra).
  unfold n_minR, n_maxR in *. revert Hlo Hhi Hsq Hs.
  generalize (sqrt r) as s. intros s Hlo Hhi Hsq Hs.
  assert (Hhi' : n * (1 - s) <= 1 + s).
  { apply (Rmult_le_compat_r (1 - s)) in Hhi; [| lra].
    unfold Rdiv in Hhi. rewrite Rmult_assoc, Rinv_l, Rmult_1_r in Hhi by lra.
    exact Hhi. }
  assert (Hlo' : 1 - r <= n * (1 + r)).
  { apply (Rmult_le_compat_r (1 + r)) in Hlo; [| lra].
    unfold Rdiv in Hlo. rewrite Rmult_assoc, Rinv_l, Rmult_1_r in Hlo by lra.
    exact Hlo. }
  assert (F1 : 0 <= (n + 1) * s - (n - 1)) by lra.
  assert (F2 : 0 <= (n + 1) * s + (n - 1)).
  { assert (H : 0 <= ((n + 1) * s + (n - 1)) * (1 + r)).
    { assert (Hm : (1 + s) * (1 - r) <= (1 + s) * (n * (1 + r)))
        by (apply Rmult_le_compat_l; lra).
      assert (Hss : 0 <= (1 - s) * (2 * s)) by (apply Rmult_le_pos; lra).
      rewrite Hsq in Hm |- *. nra. }
    destruct (Rle_dec 0 ((n + 1) * s + (n - 1))) as [Hok | Hneg];
      [exact Hok |].
    exfalso. assert (Hr1 : 0 < 1 + r) by lra. nra. }
  unfold get_k2R. unfold Rdiv. apply Rmult_le_pos.
  - assert (Hprod : 0 <= ((n + 1) * s - (n - 1)) * ((n + 1) * s + (n - 1)))
      by (apply Rmult_le_pos; assumption).
    rewrite Hsq. nra.
  - left. apply Rinv_0_lt_compat. lra.
Qed.

Lemma get_n_value (r g : R) :
  0 <= r < 1 -> get_n (Some r : xreal) (Some g) = Some (get_nR r g).
Proof.
  intros Hr. unfold get_n. rewrite n_min_exact, n_max_exact by lra.
  reflexivity.
Qed.

Lemma get_k2_value (r n : R) :
  r < 1 -> get_k2 (Some r : xreal) (Some n) = Some (get_k2R r n).
Proof.
  intros Hr. unfold get_k2.
  cbn [fadd fsub fmul fdiv of_int xreal_arith xlift2].
  rewrite xdiv_defined by lra. reflexivity.
Qed.

(** [olefresnel] in closed form, whenever its two denominators are not
    zero. *)
Lemma olefresnel_exact (r g c : R) :
  let rc := clampR r (0 / 1) (99 / 100) in
  let n := get_nR rc g in
  let k2 := get_k2R rc n in
  n * n + k2 + 2 * n * c + c * c <> 0 ->
  (n * n + k2) * c * c + 2 * n * c + 1 <> 0 ->
  olefresnel (Some r : xreal) (Some g) (Some c)
  = Some (fresnel_average n k2 c).
Proof.
  intros rc n k2 Hs Hp. pose proof (clampR_099 r) as Hrc. fold rc in Hrc.
  unfold olefresnel. cbn zeta.
  change (lit 0 1 : xreal) with (Some (0 / 1)).
  change (lit 99 100 : xreal) with (Some (99 / 100)).
  rewrite clamp_exact. fold rc.
  rewrite (get_n_value rc g Hrc). fold n.
  rewrite (get_k2_value rc n (proj2 Hrc)). fold k2.
  cbn [fadd fsub fmul fdiv of_int lit xreal_arith xlift2].
  rewrite !xdiv_defined by assumption. reflexivity.
Qed.

Lemma ole_back_solve_facts (r g : R) :
  0 <= g <= 1 ->
  let rc := clampR r (0 / 1) (99 / 100) in
  let n := get_nR rc g in
  let k2 := get_k2R rc n in
  0 < n /\ 0 <= k2.
Proof.
  intros Hg rc n k2. pose proof (clampR_099 r) as Hrc. fold rc in Hrc.
  pose proof (get_nR_bounds rc g Hrc Hg) as Hn. fold n in Hn.
  destruct (n_min_max_order rc Hrc) as [[Hmin _] _].
  split; [lra |]. apply get_k2R_nonneg; assumption.
Qed.
End ExactReference.

Section ExactReferenceFacts.
Local Open Scope R_scope.

Lemma fresnel_denominators (n k2 c : R) :
  0 < n -> 0 <= k2 -> 0 <= c ->
  0 < n * n + k2 + 2 * n * c + c * c
  /\ 0 < (n * n + k2) * c * c + 2 * n * c + 1.
Proof.
  intros Hn Hk Hc.
  assert (Hnn : 0 < n * n) by (apply Rmult_lt_0_compat; assumption).
  assert (Hnc : 0 <= n * c) by (apply Rmult_le_pos; lra).
  assert (Hcc : 0 <= c * c) by (apply Rmult_le_pos; assumption).
  assert (Hq : 0 <= (n * n + k2) * (c * c)) by (apply Rmult_le_pos; lra).
  split; lra.
Qed.

Lemma clampR_zero_lo (r hi : R) : clampR r (0 / 1) hi = clampR r 0 hi.
Proof. replace (0 / 1) with 0 by field. reflexivity. Qed.

(** At normal incidence the average is the reflectance the back-solve
    started from. *)
Lemma fresnel_average_normal (r n : R) :
  r < 1 -> 0 < n -> fresnel_average n (get_k2R r n) (1 / 1) = r.
Proof.
  intros Hr Hn. unfold fresnel_average.
  assert (E1 : n * n + get_k2R r n - 2 * n * (1 / 1) + 1 / 1 * (1 / 1)
               = 4 * n * r / (1 - r)).
  { unfold get_k2R. field. lra. }
  assert (E2 : n * n + get_k2R r n + 2 * n * (1 / 1) + 1 / 1 * (1 / 1)
               = 4 * n / (1 - r)).
  { unfold get_k2R. field. lra. }
  assert (E3 : (n * n + get_k2R r n) * (1 / 1) * (1 / 1) - 2 * n * (1 / 1) + 1
               = 4 * n * r / (1 - r)).
  { unfold get_k2R. field. lra. }
  assert (E4 : (n * n + get_k2R r n) * (1 / 1) * (1 / 1) + 2 * n * (1 / 1) + 1
               = 4 * n / (1 - r)).
  { unfold get_k2R. field. lra. }
  rewrite E1, E2, E3, E4. field. split; lra.
Qed.

Lemma fresnel_average_grazing (n k2 : R) :
  n * n + k2 <> 0 -> fresnel_average n k2 (0 / 1) = 1.
Proof.
  intros H. unfold fresnel_average. field. lra.
Qed.
End ExactReferenceFacts.

(** X3: for a reflectance 0 <= r < 1 and 0 <= g <= 1 the back-solve of the
    reference approximation is defined; the index it yields lies between
    n_min(r) and n_max(r) (g = 1 gives n_min, g = 0 gives n_max), is
    positive, and the squared absorption index solved from it is not
    negative.  Exact arithmetic. *)
Theorem back_solve_ranges (r g : R) :
  (0 <= r < 1)%R -> (0 <= g <= 1)%R ->
  exists n k2 : R,
    get_n (Some r : xreal) (Some g) = Some n
    /\ get_k2 (Some r : xreal) (Some n) = Some k2
    /\ n_min (Some r : xreal) = Some (n_minR r)
    /\ n_max (Some r : xreal) = Some (n_maxR r)
    /\ (n_minR r <= n <= n_maxR r)%R
    /\ (0 < n)%R /\ (0 <= k2)%R
    /\ (g = 1%R -> n = n_minR r) /\ (g = 0%R -> n = n_maxR r).
Proof.
  intros Hr Hg.
  pose proof (get_nR_bounds r g Hr Hg) as Hn.
  destruct (n_min_max_order r Hr) as [[Hmin _] _].
  exists (get_nR r g), (get_k2R r (get_nR r g)).
  split; [apply get_n_value; exact Hr |].
  split; [apply get_k2_value; lra |].
  split; [apply n_min_exact; lra |].
  split; [apply n_max_exact; exact Hr |].
  split; [exact Hn |]. split; [lra |].
  split; [apply get_k2R_nonneg; assumption |].
  split; intros ->; unfold get_nR; ring.
Qed.

Lemma back_solve_ranges_witness :
  exists n k2 : R,
    get_n (Some (1 / 4)%R : xreal) (Some (1 / 2)%R) = Some n
    /\ get_k2 (Some (1 / 4)%R : xreal) (Some n) = Some k2
    /\ (0 < n)%R /\ (0 <= k2)%R.
Proof.
  destruct (back_solve_ranges (1 / 4) (1 / 2) ltac:(lra) ltac:(lra))
    as (n & k2 & Hn & Hk & _ & _ & _ & Hpos & Hk2 & _).
  exists n, k2. repeat split; assumption.
Defined.

(** X4: the two ends of the reference curve.  For any r and 0 <= g <= 1,
    [olefresnel] returns at normal incidence (c = 1) the base reflectance r
    clamped to [0, 0.99], and at grazing incidence (c = 0) it returns 1
    whatever g is.  Exact arithmetic. *)
Theorem olefresnel_endpoints (r g : R) :
  (0 <= g <= 1)%R ->
  olefresnel (Some r : xreal) (Some g) (lit 1 1)
  = Some (clampR r 0 (99 / 100))
  /\ olefresnel (Some r : xreal) (Some g) (lit 0 1) = Some 1%R.
Proof.
  intros Hg. pose proof (clampR_099 r) as Hrc.
  destruct (ole_back_solve_facts r g Hg) as [Hn Hk2]. cbn zeta in Hn, Hk2.
  split.
  - change (lit 1 1 : xreal) with (Some (1 / 1)%R).
    destruct (fresnel_denominators _ _ (1 / 1) Hn Hk2 ltac:(lra)) as [Hs Hp].
    rewrite olefresnel_exact by (cbn zeta; lra).
    rewrite fresnel_average_normal by lra.
    rewrite clampR_zero_lo. reflexivity.
  - change (lit 0 1 : xreal) with (Some (0 / 1)%R).
    destruct (fresnel_denominators _ _ (0 / 1) Hn Hk2 ltac:(lra)) as [Hs Hp].
    rewrite olefresnel_exact by (cbn zeta; lra).
    rewrite fresnel_average_grazing; [reflexivity |].
    assert (0 < get_nR (clampR r (0 / 1) (99 / 100)) g
                * get_nR (clampR r (0 / 1) (99 / 100)) g)%R
      by (apply Rmult_lt_0_compat; assumption).
    lra.
Qed.

Lemma olefresnel_endpoints_witness :
  olefresnel (Some (1 / 2)%R : xreal) (Some (1 / 2)%R) (lit 0 1) = Some 1%R.
Proof.
  apply (olefresnel_endpoints (1 / 2) (1 / 2)). lra.
Defined.

(** X5: although [olefresnel] does not clamp its result, for any r,
    0 <= g <= 1 and cosTheta >= 0 the value it returns is defined and lies
    in [0,1].  Exact arithmetic. *)
Theorem olefresnel_unit_interval (r g c : R) :
  (0 <= g <= 1)%R -> (0 <= c)%R ->
  exists v : R,
    olefresnel (Some r : xreal) (Some g) (Some c) = Some v
    /\ (0 <= v <= 1)%R.
Proof.
  intros Hg Hc.
  destruct (ole_back_solve_facts r g Hg) as [Hn Hk2]. cbn zeta in Hn, Hk2.
  destruct (fresnel_denominators _ _ c Hn Hk2 Hc) as [Hs Hp].
  eexists. split.
  - apply olefresnel_exact; cbn zeta; lra.
  - apply fresnel_average_unit; try assumption; lra.
Qed.

Lemma olefresnel_unit_interval_witness :
  exists v : R,
    olefresnel (Some (3 / 2)%R : xreal) (Some (1 / 2)%R) (Some (1 / 3)%R)
    = Some v /\ (0 <= v <= 1)%R.
Proof.
  apply (olefresnel_unit_interval (3 / 2) (1 / 2) (1 / 3)); lra.
Defined.

Section ExactRoundTrip.
Local Open Scope R_scope.

Lemma clampR_id (r lo hi : R) : lo <= r <= hi -> clampR r lo hi = r.
Proof.
  intros Hr. unfold clampR.
  destruct (Rlt_dec r lo); [lra |]. destruct (Rlt_dec hi r); [lra | reflexivity].
Qed.

Lemma get_g_value (n k : R) :
  0 < n -> ~ (n = 1 /\ k = 0) ->
  get_g (Some n : xreal) (Some k)
  = Some ((n_maxR (r_normal n k) - n)
          / (n_maxR (r_normal n k) - n_minR (r_normal n k)))
  /\ n_maxR (r_normal n k) - n_minR (r_normal n k) <> 0.
Proof.
  intros Hn Hne.
  pose proof (r_normal_range n k Hn) as Hrange.
  assert (Hr0 : 0 < r_normal n k).
  { destruct (Req_dec_T (r_normal n k) 0) as [E | E]; [| lra].
    exfalso. apply Hne. apply r_normal_zero; [lra | exact E]. }
  assert (Hdiff : n_maxR (r_normal n k) - n_minR (r_normal n k) <> 0).
  { unfold n_maxR, n_minR. apply n_max_neq_n_min. lra. }
  split; [| exact Hdiff].
  unfold get_g. rewrite get_r_exact by lra.
  rewrite n_max_exact, n_min_exact by lra.
  cbn [fsub fdiv xreal_arith xlift2].
  rewrite xdiv_defined by exact Hdiff. reflexivity.
Qed.

Lemma get_nR_inverse (r n : R) :
  n_maxR r - n_minR r <> 0 ->
  get_nR r ((n_maxR r - n) / (n_maxR r - n_minR r)) = n.
Proof.
  intros Hdiff. unfold get_nR. revert Hdiff.
  generalize (n_maxR r) as A. generalize (n_minR r) as B.
  intros B A Hdiff. field. exact Hdiff.
Qed.

Lemma get_k2R_inverse (n k : R) :
  0 < n -> get_k2R (r_normal n k) n = k * k.
Proof.
  intros Hn. unfold get_k2R, r_normal. field. split; nra.
Qed.
End ExactRoundTrip.

(** X6: the reference approximation applied to the reflectance r = get_r(n, k)
    and the parameter g = get_g(n, k) of a medium gives back the physical
    curve of that medium: olefresnel(r, g, c) = complexFresnel(n, k, c) for
    every cosTheta >= 0, provided n > 0, k >= 0, (n, k) is not (1, 0) and r
    does not exceed the clamp bound 0.99.  Exact arithmetic. *)
Theorem olefresnel_round_trip (n k c : R) :
  (0 < n)%R -> (0 <= k)%R -> ~ (n = 1 /\ k = 0)%R ->
  (r_normal n k <= 99 / 100)%R -> (0 <= c)%R ->
  olefresnel (get_r (Some n : xreal) (Some k)) (get_g (Some n) (Some k))
    (Some c)
  = complexFresnel (Some n) (Some k) (Some c).
Proof.
  intros Hn Hk Hne Hr99 Hc.
  pose proof (r_normal_range n k Hn) as Hrange.
  destruct (get_g_value n k Hn Hne) as [Hg Hdiff].
  rewrite get_r_exact by lra. rewrite Hg.
  assert (Erc : clampR (r_normal n k) (0 / 1) (99 / 100) = r_normal n k)
    by (apply clampR_id; lra).
  pose proof (get_nR_inverse (r_normal n k) n Hdiff) as En.
  pose proof (get_k2R_inverse n k Hn) as Ek.
  assert (Hkk : (0 <= k * k)%R) by (apply Rmult_le_pos; assumption).
  destruct (fresnel_denominators n (k * k) c Hn Hkk Hc) as [Hs Hp].
  rewrite olefresnel_exact.
  - cbn zeta. rewrite Erc, En, Ek.
    symmetry. apply complexFresnel_average; [lra | exact Hc | lra].
  - cbn zeta. rewrite Erc, En, Ek. lra.
  - cbn zeta. rewrite Erc, En, Ek. lra.
Qed.

Lemma olefresnel_round_trip_witness :
  olefresnel (get_r (Some 2%R : xreal) (Some 3%R)) (get_g (Some 2%R) (Some 3%R))
    (Some (1 / 2)%R)
  = complexFresnel (Some 2%R) (Some 3%R) (Some (1 / 2)%R).
Proof.
  apply (olefresnel_round_trip 2 3 (1 / 2)); try lra.
  unfold r_normal. lra.
Defined.

(** X7: with a white grazing color (g = 1), which is what the driver passes,
    the reference approximation of a base reflectance 0 <= r <= 0.99 is the
    physical curve of the medium with n = (1 - r)/(1 + r) and
    k = 2 sqrt(r)/(1 + r), for every cosTheta >= 0.  Exact arithmetic. *)
Theorem olefresnel_white_grazing (r c : R) :
  (0 <= r <= 99 / 100)%R -> (0 <= c)%R ->
  olefresnel (Some r : xreal) (Some 1%R) (Some c)
  = complexFresnel (Some ((1 - r) / (1 + r))%R)
      (Some (2 * sqrt r / (1 + r))%R) (Some c).
Proof.
  intros Hr Hc.
  assert (Erc : clampR r (0 / 1) (99 / 100) = r) by (apply clampR_id; lra).
  assert (En : get_nR r 1 = ((1 - r) / (1 + r))%R)
    by (unfold get_nR, n_minR; ring).
  assert (Hn : (0 < (1 - r) / (1 + r))%R) by (apply Rdiv_lt_0_compat; lra).
  assert (Hsq : (sqrt r * sqrt r = r)%R) by (apply sqrt_sqrt; lra).
  assert (Ek : get_k2R r ((1 - r) / (1 + r))
               = (2 * sqrt r / (1 + r) * (2 * sqrt r / (1 + r)))%R).
  { unfold get_k2R.
    replace (2 * sqrt r / (1 + r) * (2 * sqrt r / (1 + r)))%R
      with (4 * (sqrt r * sqrt r) / ((1 + r) * (1 + r)))%R
      by (field; lra).
    rewrite Hsq. field. split; lra. }
  assert (Hkk : (0 <= 2 * sqrt r / (1 + r) * (2 * sqrt r / (1 + r)))%R).
  { pose proof (Rle_0_sqr (2 * sqrt r / (1 + r))) as H. exact H. }
  destruct (fresnel_denominators _ _ c Hn Hkk Hc) as [Hs Hp].
  rewrite olefresnel_exact.
  - cbn zeta. rewrite Erc, En, Ek.
    symmetry. apply complexFresnel_average; [lra | exact Hc | lra].
  - cbn zeta. rewrite Erc, En, Ek. lra.
  - cbn zeta. rewrite Erc, En, Ek. lra.
Qed.

Lemma olefresnel_white_grazing_witness :
  olefresnel (Some (1 / 2)%R : xreal) (Some 1%R) (Some (1 / 3)%R)
  = complexFresnel (Some ((1 - 1 / 2) / (1 + 1 / 2))%R)
      (Some (2 * sqrt (1 / 2) / (1 + 1 / 2))%R) (Some (1 / 3)%R).
Proof.
  apply (olefresnel_white_grazing (1 / 2) (1 / 3)); lra.
Defined.

(** ** The production blend *)

(** X8: when the SDK's coefficient f lies in [0,1], every component of the
    production approximation lies between the corresponding components of
    the base and the grazing color; f = 0 gives the base color and f = 1 the
    grazing color.  Exact arithmetic. *)
Theorem getVRayMetallicFresnel_between (K : SDK xreal)
    (b1 b2 b3 r1 r2 r3 param cs f : R) :
  fresnel_coeff (Some param) (Some cs) = Some f ->
  (0 <= f <= 1)%R ->
  exists v1 v2 v3 : R,
    getVRayMetallicFresnel
      (mkColor (Some b1) (Some b2) (Some b3))
      (mkColor (Some r1) (Some r2) (Some r3)) (Some param) (Some cs)
    = mkColor (Some v1) (Some v2) (Some v3)
    /\ (Rmin b1 r1 <= v1 <= Rmax b1 r1)%R
    /\ (Rmin b2 r2 <= v2 <= Rmax b2 r2)%R
    /\ (Rmin b3 r3 <= v3 <= Rmax b3 r3)%R
    /\ (f = 0%R -> v1 = b1 /\ v2 = b2 /\ v3 = b3)
    /\ (f = 1%R -> v1 = r1 /\ v2 = r2 /\ v3 = r3).
Proof.
  intros Hf Hrange. rewrite getVRayMetallicFresnel_blend, Hf.
  unfold color_add, color_scale.
  cbn [cr cg cb fadd fsub fmul lit xreal_arith xlift2].
  assert (Hmix : forall b r : R,
             (Rmin b r <= b * (1 / 1 - f) + r * f <= Rmax b r)%R).
  { intros b r. unfold Rmin, Rmax. destruct (Rle_dec b r); nra. }
  eexists _, _, _. split; [reflexivity |].
  split; [apply Hmix |]. split; [apply Hmix |]. split; [apply Hmix |].
  split; intros ->; repeat split; field.
Qed.

Lemma getVRayMetallicFresnel_between_witness :
  exists v1 v2 v3 : R,
    getVRayMetallicFresnel (K := sample_sdk)
      (mkColor (Some (1 / 4)%R) (Some (1 / 2)%R) (Some (3 / 4)%R))
      (mkColor (Some 1%R) (Some 1%R) (Some 1%R)) (Some 2%R) (Some (1 / 2)%R)
    = mkColor (Some v1) (Some v2) (Some v3)
    /\ (1 / 4 <= v1 <= 1)%R.
Proof.
  assert (Hf : fresnel_coeff (K := sample_sdk) (Some 2%R) (Some (1 / 2)%R)
               = Some ((2 - 1) / (2 + 1) * ((2 - 1) / (2 + 1))
                       + (1 - (2 - 1) / (2 + 1) * ((2 - 1) / (2 + 1)))
                         * ((1 - 1 / 2) * (1 - 1 / 2) * (1 - 1 / 2)
                            * (1 - 1 / 2) * (1 - 1 / 2)))%R).
  { unfold fresnel_coeff.
    cbn [getFresnelCoeff getRefractDir sample_sdk fst dot3 vx vy vz
         fadd fsub fmul fdiv fopp fsqrt of_int lit xreal_arith xlift2 xsqrt].
    destruct (Rlt_dec (1 / 1 - 1 / 2 * (1 / 2)) 0) as [Hneg | _]; [lra |].
    cbn [xlift2 option_map]. rewrite xdiv_defined by lra.
    cbn [xlift2]. f_equal. field. }
  destruct (getVRayMetallicFresnel_between sample_sdk
              (1 / 4) (1 / 2) (3 / 4) 1 1 1 2 (1 / 2) _ Hf ltac:(lra))
    as (v1 & v2 & v3 & Hv & H1 & _).
  exists v1, v2, v3. split; [exact Hv |].
  unfold Rmin, Rmax in H1. destruct (Rle_dec (1 / 4) 1); lra.
Defined.

(** ** The bitmap *)

Section Bitmap.
Context {F D : Type} {AF : Arith F} {AD : Arith D} {W : Widen F D}
        {K : SDK F}.

Lemma putPixel_in_bitmap (x y : F) (c : Color F) (b : list (Z * Z)) :
  in_bitmap b -> in_bitmap (putPixel x y c b).
Proof.
  intros Hb. unfold putPixel. cbn zeta.
  destruct ((fast_floor (x * of_int bwidth)%fl <? 0)%Z
            || (fast_floor (x * of_int bwidth)%fl >=? bwidth)%Z) eqn:Hx;
    [exact Hb |].
  destruct ((bheight - 1 - fast_floor (y * of_int (bheight - 1)%Z)%fl <? 0)%Z
            || (bheight - 1 - fast_floor (y * of_int (bheight - 1)%Z)%fl
                >=? bheight)%Z) eqn:Hy;
    [exact Hb |].
  apply orb_false_elim in Hx as [Hx0 Hx1].
  apply orb_false_elim in Hy as [Hy0 Hy1].
  rewrite Z.geb_leb in Hx1, Hy1.
  apply Z.ltb_ge in Hx0, Hy0. apply Z.leb_gt in Hx1, Hy1.
  constructor; [| exact Hb]. cbn [fst].
  unfold bwidth, bheight in *. lia.
Qed.

Lemma putColorGraph_in_bitmap (x : F) (c : Color F) (f : F)
    (b : list (Z * Z)) :
  in_bitmap b -> in_bitmap (putColorGraph x c f b).
Proof.
  intros Hb. unfold putColorGraph. repeat apply putPixel_in_bitmap. exact Hb.
Qed.

Lemma plot_sample_in_bitmap (N : Z) (n k base reflection : Color F) (ior : F)
    (xs : Z) (st : plot D) :
  in_bitmap (plot_buf st) ->
  in_bitmap (plot_buf (plot_sample N n k base reflection ior xs st)).
Proof.
  intros Hb. unfold plot_sample. cbn zeta. cbn [plot_buf].
  repeat match goal with
    | |- in_bitmap (if ?t then _ else _) => destruct t
    | |- in_bitmap (putColorGraph _ _ _ _) => apply putColorGraph_in_bitmap
    end; exact Hb.
Qed.

Lemma preset_report_in_bitmap (fuel : nat) (p : MetalPreset F)
    (row : csv_row F D) (b : list (Z * Z)) :
  preset_report fuel p = Some (row, b) -> in_bitmap b.
Proof.
  unfold preset_report. intros H.
  destruct (findIOR fuel (preset_n p) (preset_k p)) as [ior |];
    [| discriminate H].
  assert (Hinv : in_bitmap
            (plot_buf
               (for_int 1 (bwidth * 2)
                  (plot_sample (bwidth * 2) (preset_n p) (preset_k p)
                     (getComplexFresnel (preset_n p) (preset_k p) (lit 1 1))
                     (getComplexFresnel (preset_n p) (preset_k p) (lit 0 1))
                     ior)
                  (mkPlot [] (widen (lit 0 1)) (widen (lit 0 1)))))).
  { unfold for_int.
    apply (for_range_invariant (fun st : plot D => in_bitmap (plot_buf st))).
    - intros i s' _. apply plot_sample_in_bitmap.
    - constructor. }
  revert H Hinv.
  generalize (for_int 1 (bwidth * 2)
                (plot_sample (bwidth * 2) (preset_n p) (preset_k p)
                   (getComplexFresnel (preset_n p) (preset_k p) (lit 1 1))
                   (getComplexFresnel (preset_n p) (preset_k p) (lit 0 1))
                   ior)
                (mkPlot [] (widen (lit 0 1)) (widen (lit 0 1)))) as st.
  intros st H Hinv. injection H as _ <-. exact Hinv.
Qed.
End Bitmap.

(** X10: no write leaves the bitmap.  Whatever [fast_floor] returns,
    [putPixel] either leaves the bitmap as it is or writes one entry whose
    index lies in [0, bwidth * bheight); hence every pixel of the bitmap
    drawn for a preset lies in that range.  Any arithmetic, any SDK. *)
Theorem bitmap_writes_in_bounds (F D : Type) (AF : Arith F) (AD : Arith D)
    (W : Widen F D) (K : SDK F) :
  (forall (x y : F) (c : Color F) (b : list (Z * Z)),
      (putPixel x y c b = b
       \/ exists i : Z,
            putPixel x y c b = (i, toRGB32 c) :: b
            /\ (0 <= i < bwidth * bheight)%Z))
  /\ (forall (fuel : nat) (p : MetalPreset F) (row : csv_row F D)
             (b : list (Z * Z)),
         preset_report fuel p = Some (row, b) -> in_bitmap b).
Proof.
  split.
  - intros x y c b.
    pose proof (putPixel_in_bitmap x y c [] (Forall_nil _)) as Hin.
    unfold putPixel in *. cbn zeta in *.
    destruct ((fast_floor (x * of_int bwidth)%fl <? 0)%Z
              || (fast_floor (x * of_int bwidth)%fl >=? bwidth)%Z);
      [left; reflexivity |].
    destruct ((bheight - 1 - fast_floor (y * of_int (bheight - 1)%Z)%fl <? 0)%Z
              || (bheight - 1 - fast_floor (y * of_int (bheight - 1)%Z)%fl
                  >=? bheight)%Z);
      [left; reflexivity |].
    right. eexists. split; [reflexivity |].
    inversion Hin as [| w l Hw _]. exact Hw.
  - intros fuel p row b. apply preset_report_in_bitmap.
Qed.

Lemma bitmap_writes_in_bounds_witness :
  exists (row : csv_row binary32 binary64) (b : list (Z * Z)),
    preset_report (K := sample_sdk) enough_fuel silver = Some (row, b)
    /\ in_bitmap b.
Proof.
  destruct (preset_report_terminates (K := sample_sdk) silver)
    as [[row b] Hrep].
  specialize (Hrep enough_fuel (le_n _)).
  exists row, b. split; [exact Hrep |].
  exact (proj2 (bitmap_writes_in_bounds _ _ _ _ _ sample_sdk)
           enough_fuel silver row b Hrep).
Defined.

(** ** The bitmap after the driver has run *)

Section Binary32Bitmap.
Context {K : SDK binary32}.

Lemma render_loop_bitmap (fp : bool) (ps : list (MetalPreset binary32))
    (count : nat) :
  forall (idx : nat) (w : World binary32 binary64),
    presets w = ps -> (idx + count = List.length ps)%nat ->
    exists w',
      for_range count (Z.of_nat idx)
        (fun presetIdx ow =>
           match ow with
           | None => None
           | Some w => render_preset enough_fuel fp presetIdx w
           end)
        (Some w) = Some w'
      /\ (count = 0%nat -> buf w' = buf w)
      /\ (forall p, (0 < count)%nat ->
            nth_error ps (List.length ps - 1) = Some p ->
            exists row, preset_report enough_fuel p = Some (row, buf w')).
Proof.
  induction count as [| count IH]; intros idx w Hps Hlen.
  - exists w. split; [reflexivity |]. split; [reflexivity |].
    intros p Hpos. lia.
  - destruct (nth_error ps idx) as [p0 |] eqn:Hp0.
    2:{ apply nth_error_None in Hp0. lia. }
    destruct (preset_report_terminates p0) as [[row0 b0] Hrep].
    specialize (Hrep enough_fuel (le_n _)).
    cbn [for_range]. unfold render_preset at 2.
    rewrite Nat2Z.id, Hps, Hp0, Hrep.
    replace (Z.of_nat idx + 1)%Z with (Z.of_nat (S idx)) by lia.
    destruct (IH (S idx)
                (mkWorld ps b0 (if fp then csv w ++ [Row row0] else csv w))
                eq_refl ltac:(lia))
      as (w' & Hrun & Hzero & Hlast).
    exists w'. split; [exact Hrun |]. split; [intros E; discriminate E |].
    intros p _ Hp. destruct count as [| count'].
    + rewrite (Hzero eq_refl). cbn [buf].
      replace (List.length ps - 1)%nat with idx in Hp by lia.
      rewrite Hp0 in Hp. injection Hp as <-. exists row0. exact Hrep.
    + apply Hlast; [lia | exact Hp].
Qed.
End Binary32Bitmap.

(** X11: each preset starts from a cleared bitmap, so after [renderCycle]
    the bitmap holds exactly the plot of the last preset of the table,
    whatever it held before, and all its pixels lie inside the bitmap.
    binary32, any table of fifteen presets. *)
Theorem renderCycle_bitmap (K : SDK binary32) (fp : bool)
    (w : World binary32 binary64) :
  List.length (presets w) = 15%nat ->
  exists w' p row,
    renderCycle enough_fuel fp w = Some w'
    /\ nth_error (presets w) 14 = Some p
    /\ preset_report enough_fuel p = Some (row, buf w')
    /\ in_bitmap (buf w').
Proof.
  intros Hlen.
  destruct (nth_error (presets w) 14) as [p |] eqn:Hp.
  2:{ apply nth_error_None in Hp. lia. }
  destruct (render_loop_bitmap fp (presets w) 15 0
              (mkWorld (presets w) (buf w)
                 (if fp then csv w ++ [Header] else csv w))
              eq_refl ltac:(cbn [presets]; lia))
    as (w' & Hrun & _ & Hlast).
  destruct (Hlast p ltac:(lia)) as [row Hrow].
  { rewrite Hlen. exact Hp. }
  exists w', p, row. split; [exact Hrun |]. split; [reflexivity |].
  split; [exact Hrow |].
  exact (preset_report_in_bitmap enough_fuel p row (buf w') Hrow).
Qed.

Lemma renderCycle_bitmap_witness :
  exists (w' : World binary32 binary64) (p : MetalPreset binary32)
         (row : csv_row binary32 binary64),
    renderCycle (K := sample_sdk) enough_fuel false
      (mkWorld metalPresets [(5, 7)%Z] []) = Some w'
    /\ preset_report (K := sample_sdk) enough_fuel p = Some (row, buf w').
Proof.
  destruct (renderCycle_bitmap sample_sdk false
              (mkWorld metalPresets [(5, 7)%Z] []) eq_refl)
    as (w' & p & row & Hrun & _ & Hrow & _).
  exists w', p, row. split; [exact Hrun | exact Hrow].
Defined.

(** ** The candidates of the sweep *)

Section ExactCandidates.
Local Open Scope R_scope.

Lemma ior_grid_exact_values (m : nat) :
  forall x : R,
    10 - x <= IZR (Z.of_nat m) / 1000 ->
    IZR (Z.of_nat m) / 1000 - 1 / 1000 < 10 - x ->
    exists g : list xreal,
      ior_grid (S m) (Some x) = Some g
      /\ List.length g = m
      /\ forall i : nat, (i < m)%nat ->
           exists v, nth_error g i = Some (Some v)
                     /\ v = x + IZR (Z.of_nat i) / 1000.
Proof.
  induction m as [| m IH]; intros x Hle Hlt.
  - cbn [ior_grid fltb lit xreal_arith xltb].
    destruct (Rlt_dec x (10 / 1)) as [Hx | _].
    + cbn [Z.of_nat] in Hle. lra.
    + exists []. split; [reflexivity |]. split; [reflexivity |].
      intros i Hi. lia.
  - rewrite Nat2Z.inj_succ, succ_IZR in Hle, Hlt.
    assert (Hm : 0 <= IZR (Z.of_nat m)) by (apply IZR_le; lia).
    change (ior_grid (S (S m)) (Some x))
      with (if xltb (Some x) (Some (10 / 1))
            then option_map (cons (Some x))
                   (ior_grid (S m) (Some (x + 1 / 1000)))
            else Some []).
    unfold xltb. destruct (Rlt_dec x (10 / 1)) as [_ | Hx]; [| lra].
    destruct (IH (x + 1 / 1000)) as (g & Hg & Hlen & Hnth); [lra | lra |].
    rewrite Hg. exists (Some x :: g). split; [reflexivity |].
    split; [cbn [List.length]; rewrite Hlen; reflexivity |].
    intros [| i] Hi.
    + exists x. split; [reflexivity |]. cbn [Z.of_nat]. lra.
    + destruct (Hnth i ltac:(lia)) as (v & Hv & ->).
      exists (x + 1 / 1000 + IZR (Z.of_nat i) / 1000).
      split; [exact Hv |]. rewrite Nat2Z.inj_succ, succ_IZR. lra.
Qed.
End ExactCandidates.

Lemma increasing32_adjacent (g : list binary32) :
  increasing32 g = true ->
  forall (i : nat) (x y : binary32),
    nth_error g i = Some x -> nth_error g (S i) = Some y ->
    lt32 x y = true.
Proof.
  induction g as [| a g IH]; intros Hinc i x y Hx Hy.
  - destruct i; discriminate Hx.
  - destruct g as [| b g'].
    + destruct i; discriminate Hy.
    + cbn [increasing32] in Hinc. apply andb_prop in Hinc as [Hab Htl].
      destruct i as [| i].
      * cbn [nth_error] in Hx, Hy. injection Hx as <-. injection Hy as <-.
        exact Hab.
      * apply (IH Htl i x y); assumption.
Qed.

Lemma grid_shape_ok_sound (o : option (list binary32)) :
  grid_shape_ok o = true ->
  exists g : list binary32,
    o = Some g
    /\ (forall (i : nat) (x y : binary32),
          nth_error g i = Some x -> nth_error g (S i) = Some y ->
          lt32 x y = true)
    /\ nth_error g 0 = Some (lit 1001 1000)
    /\ lt32 (lit 9999 1000) (last g (lit 0 1)) = true
    /\ lt32 (last g (lit 0 1)) (lit 99995 10000) = true.
Proof.
  destruct o as [g |]; [| discriminate].
  intros H. cbn [grid_shape_ok] in H.
  apply andb_prop in H as [H Hhi]. apply andb_prop in H as [H Hlo].
  apply andb_prop in H as [Hinc Hhd].
  exists g. split; [reflexivity |].
  split; [apply increasing32_adjacent; exact Hinc |].
  split; [| split; assumption].
  destruct g as [| [x] g']; [discriminate Hhd |].
  change (lit 1001 1000 : binary32)
    with (B32 (b32_val (lit 1001 1000 : binary32))).
  cbn [b32_val] in Hhd |- *.
  destruct x as [s | s | | s m e]; try discriminate Hhd.
  destruct (b32_val (lit 1001 1000 : binary32)) as [s' | s' | | s' m' e'];
    try discriminate Hhd.
  apply andb_prop in Hhd as [Hsm He]. apply andb_prop in Hsm as [Hs Hm].
  apply Bool.eqb_prop in Hs. apply Pos.eqb_eq in Hm. apply Z.eqb_eq in He.
  subst. reflexivity.
Qed.

(** X12: the candidates of the sweep.  In exact arithmetic the loop of
    [findIOR] visits exactly the 8999 values 1.001 + i/1000, i = 0 .. 8998.
    In binary32 it starts at 1.001f and every candidate is strictly below the
    next one, but the repeated addition of 0.001f drifts: the last candidate
    lies strictly between 9.999 and 9.9995. *)
Theorem sweep_candidates :
  (exists g : list xreal,
      ior_grid enough_fuel (lit 1001 1000) = Some g
      /\ Z.of_nat (List.length g) = 8999%Z
      /\ forall i : Z, (0 <= i < 8999)%Z ->
           exists v, nth_error g (Z.to_nat i) = Some (Some v)
                     /\ v = (1001 / 1000 + IZR i / 1000)%R)
  /\ (exists g : list binary32,
         ior_grid enough_fuel (lit 1001 1000) = Some g
         /\ Z.of_nat (List.length g) = 8999%Z
         /\ (forall (i : nat) (x y : binary32),
               nth_error g i = Some x -> nth_error g (S i) = Some y ->
               lt32 x y = true)
         /\ nth_error g 0 = Some (lit 1001 1000)
         /\ lt32 (lit 9999 1000) (last g (lit 0 1)) = true
         /\ lt32 (last g (lit 0 1)) (lit 99995 10000) = true).
Proof.
  split.
  - assert (Hfuel : enough_fuel = S (Z.to_nat 8999)).
    { unfold enough_fuel. rewrite <- Z2Nat.inj_succ by lia. reflexivity. }
    rewrite Hfuel.
    destruct (ior_grid_exact_values (Z.to_nat 8999) (1001 / 1000)%R)
      as (g & Hg & Hlen & Hnth).
    { rewrite Z2Nat.id by lia. lra. }
    { rewrite Z2Nat.id by lia. lra. }
    exists g. split; [exact Hg |].
    split; [rewrite Hlen; apply Z2Nat.id; lia |].
    intros i Hi. destruct (Hnth (Z.to_nat i)) as (v & Hv & Hval).
    { apply Z2Nat.inj_lt; lia. }
    exists v. split; [exact Hv |]. rewrite Z2Nat.id in Hval by lia.
    exact Hval.
  - destruct grid32 as (g & Hg & Hlen & _).
    destruct (grid_shape_ok_sound (ior_grid enough_fuel (lit 1001 1000)))
      as (g' & Hg' & Hinc & Hhd & Hlo & Hhi).
    { vm_compute. reflexivity. }
    assert (E : g' = g) by congruence. subst g'.
    exists g. split; [exact Hg |]. split; [exact Hlen |].
    split; [exact Hinc |]. split; [exact Hhd |].
    split; [exact Hlo | exact Hhi].
Qed.

(** ** The parameter g of a medium *)

Section ExactParameter.
Local Open Scope R_scope.

Lemma n_le_n_max (n k : R) :
  0 < n -> n <= n_maxR (r_normal n k).
Proof.
  intros Hn. pose proof (r_normal_range n k Hn) as Hr.
  pose proof (sqrt_lt_one _ Hr) as Hs. unfold n_maxR.
  apply le_div; [lra |].
  destruct (Rle_dec n 1) as [Hle | Hgt].
  - assert (0 <= sqrt (r_normal n k) * (n + 1)) by (apply Rmult_le_pos; lra).
    lra.
  - assert (Ht : 0 <= (n - 1) / (n + 1)).
    { unfold Rdiv. apply Rmult_le_pos; [lra |].
      left. apply Rinv_0_lt_compat. lra. }
    assert (Hsq : (n - 1) / (n + 1) * ((n - 1) / (n + 1)) <= r_normal n k).
    { assert (E : r_normal n k - (n - 1) / (n + 1) * ((n - 1) / (n + 1))
                  = k * k * (4 * n)
                    / ((n + 1) * (n + 1) * ((n + 1) * (n + 1) + k * k))).
      { unfold r_normal. field. split; nra. }
      assert (Hpos : 0 <= k * k * (4 * n)
                          / ((n + 1) * (n + 1) * ((n + 1) * (n + 1) + k * k))).
      { pose proof (Rle_0_sqr k) as Hk. unfold Rsqr in Hk.
        unfold Rdiv. apply Rmult_le_pos.
        - apply Rmult_le_pos; lra.
        - left. apply Rinv_0_lt_compat. apply Rmult_lt_0_compat; nra. }
      lra. }
    assert (Hle : (n - 1) / (n + 1) <= sqrt (r_normal n k)).
    { rewrite <- (sqrt_square ((n - 1) / (n + 1))) by exact Ht.
      apply sqrt_le_1_alt. exact Hsq. }
    assert (Hmul : (n - 1) / (n + 1) * (n + 1) <= sqrt (r_normal n k) * (n + 1))
      by (apply Rmult_le_compat_r; lra).
    unfold Rdiv in Hmul. rewrite Rmult_assoc, Rinv_l, Rmult_1_r in Hmul by lra.
    lra.
Qed.
End ExactParameter.

(** X13: for a medium with n > 0, k >= 0 other than (1, 0), the parameter
    g = get_g(n, k) is defined and never negative, and it is at most 1
    exactly when n is at least n_min(r) = (1 - r)/(1 + r), r = get_r(n, k).
    Exact arithmetic. *)
Theorem get_g_range (n k : R) :
  (0 < n)%R -> (0 <= k)%R -> ~ (n = 1 /\ k = 0)%R ->
  exists g : R,
    get_g (Some n : xreal) (Some k) = Some g
    /\ (0 <= g)%R
    /\ ((g <= 1)%R <-> (n_minR (r_normal n k) <= n)%R).
Proof.
  intros Hn Hk Hne.
  destruct (get_g_value n k Hn Hne) as [Hg Hdiff].
  pose proof (r_normal_range n k Hn) as Hr.
  destruct (n_min_max_order _ Hr) as [[_ Hmin] Hmax].
  pose proof (n_le_n_max n k Hn) as Hle.
  assert (Hpos : (0 < n_maxR (r_normal n k) - n_minR (r_normal n k))%R) by lra.
  eexists. split; [exact Hg |]. split.
  - unfold Rdiv. apply Rmult_le_pos; [lra |].
    left. apply Rinv_0_lt_compat. exact Hpos.
  - split.
    + intros H1.
      apply (Rmult_le_compat_r
               (n_maxR (r_normal n k) - n_minR (r_normal n k))) in H1;
        [| lra].
      unfold Rdiv in H1. rewrite Rmult_assoc, Rinv_l in H1 by lra. lra.
    + intros H1. apply div_le; lra.
Qed.

Lemma get_g_range_witness :
  exists g : R,
    get_g (Some 2%R : xreal) (Some 3%R) = Some g /\ (0 <= g)%R.
Proof.
  destruct (get_g_range 2 3 ltac:(lra) ltac:(lra) ltac:(lra))
    as (g & Hg & Hpos & _).
  exists g. split; assumption.
Defined.

(** ** Saturation of the reference approximation *)

Lemma clamp32_above (r : binary32) :
  lt32 (lit 99 100) r = true ->
  clamp r (lit 0 1) (lit 99 100) = (lit 99 100 : binary32).
Proof.
  intros H. unfold clamp.
  assert (Hlo : (r <? lit 0 1)%fl = false).
  { destruct r as [[s | s | | s m e]]; try discriminate H;
      destruct s; try discriminate H; reflexivity. }
  rewrite Hlo.
  change (lit 99 100 <? r)%fl with (lt32 (lit 99 100) r). rewrite H.
  reflexivity.
Qed.

Lemma clamp32_below (r : binary32) :
  lt32 r (lit 0 1) = true ->
  clamp r (lit 0 1) (lit 99 100) = (lit 0 1 : binary32).
Proof.
  intros H. unfold clamp.
  change (r <? lit 0 1)%fl with (lt32 r (lit 0 1)). rewrite H. reflexivity.
Qed.

(** X14: the reference approximation saturates.  In binary32, bit for bit,
    every base reflectance above 0.99f gives the curve of 0.99f and every
    negative one the curve of 0, for any g and cosTheta. *)
Theorem olefresnel_saturates (r g c : binary32) :
  (lt32 (lit 99 100) r = true ->
   olefresnel r g c = olefresnel (lit 99 100) g c)
  /\ (lt32 r (lit 0 1) = true ->
      olefresnel r g c = olefresnel (lit 0 1) g c).
Proof.
  assert (Hhi : clamp (lit 99 100 : binary32) (lit 0 1) (lit 99 100)
                = lit 99 100) by (vm_compute; reflexivity).
  assert (Hlo : clamp (lit 0 1 : binary32) (lit 0 1) (lit 99 100)
                = lit 0 1) by (vm_compute; reflexivity).
  split; intros H; unfold olefresnel; cbn zeta.
  - rewrite (clamp32_above r H), Hhi. reflexivity.
  - rewrite (clamp32_below r H), Hlo. reflexivity.
Qed.

Lemma olefresnel_saturates_witness :
  olefresnel (lit 2 1 : binary32) (lit 1 1) (lit 1 2)
  = olefresnel (lit 99 100) (lit 1 1) (lit 1 2).
Proof.
  apply (proj1 (olefresnel_saturates (lit 2 1) (lit 1 1) (lit 1 2))).
  vm_compute. reflexivity.
Defined.

(** ** The result of the fitter *)


(** ** Exact arithmetic: the fitter never returns its initial value *)

Lemma zrange_In (count : nat) :
  forall lo xs : Z,
    In xs (zrange count lo) -> (lo <= xs < lo + Z.of_nat count)%Z.
Proof.
  induction count as [| count IH]; intros lo xs Hin; [destruct Hin |].
  cbn [zrange] in Hin. destruct Hin as [<- | Hin]; [lia |].
  apply IH in Hin. lia.
Qed.

Section ExactScores.
Context {K : SDK xreal}.
Local Open Scope R_scope.

Lemma angles_exact (N : Z) (x : xreal) :
  (1 < N)%Z -> In x (angles N) ->
  exists v, x = Some v /\ 0 < v < 1.
Proof.
  intros HN Hin. unfold angles in Hin. apply in_map_iff in Hin.
  destruct Hin as (xs & <- & Hxs). apply zrange_In in Hxs.
  rewrite Z2Nat.id in Hxs by lia.
  assert (HNpos : 1 < IZR N) by (apply IZR_lt; exact HN).
  cbn [of_int fdiv xreal_arith]. rewrite xdiv_defined by lra.
  exists (IZR xs / IZR N). split; [reflexivity |].
  assert (1 <= IZR xs) by (apply IZR_le; lia).
  assert (IZR xs < IZR N) by (apply IZR_lt; lia).
  split.
  - apply Rdiv_lt_0_compat; lra.
  - apply (Rmult_lt_reg_r (IZR N)); [lra |].
    unfold Rdiv. rewrite Rmult_assoc, Rinv_l by lra. lra.
Qed.

Lemma getComplexFresnel_unit (n1 n2 n3 k1 k2 k3 c : R) :
  0 < n1 -> 0 < n2 -> 0 < n3 -> 0 <= c ->
  color_unit
    (getComplexFresnel (mkColor (Some n1) (Some n2) (Some n3))
       (mkColor (Some k1) (Some k2) (Some k3)) (Some c)).
Proof.
  intros H1 H2 H3 Hc.
  assert (Hch : forall n k, 0 < n ->
            exists w, complexFresnel (Some n : xreal) (Some k) (Some c)
                      = Some w /\ 0 <= w <= 1).
  { intros n k Hn. apply complexFresnel_defined.
    - intros E. apply rs_den_zero_iff in E; lra.
    - pose proof (rp_den_ge_1 n k c ltac:(lra) Hc). lra. }
  destruct (Hch n1 k1 H1) as (w1 & Hw1 & Hr1).
  destruct (Hch n2 k2 H2) as (w2 & Hw2 & Hr2).
  destruct (Hch n3 k3 H3) as (w3 & Hw3 & Hr3).
  exists w1, w2, w3. unfold getComplexFresnel. cbn [cr cg cb].
  rewrite Hw1, Hw2, Hw3. repeat split; lra.
Qed.

Lemma blend_unit (base reflection : Color xreal) (ior x : xreal) (f : R) :
  color_unit base -> color_unit reflection ->
  fresnel_coeff ior x = Some f -> 0 <= f <= 1 ->
  color_unit (getVRayMetallicFresnel base reflection ior x).
Proof.
  intros (b1 & b2 & b3 & -> & Hb1 & Hb2 & Hb3)
         (r1 & r2 & r3 & -> & Hr1 & Hr2 & Hr3) Hf Hfr.
  rewrite getVRayMetallicFresnel_blend, Hf.
  unfold color_add, color_scale.
  cbn [cr cg cb fadd fsub fmul lit xreal_arith xlift2].
  eexists _, _, _. split; [reflexivity |].
  assert (Hmix : forall b r : R,
            0 <= b <= 1 -> 0 <= r <= 1 ->
            0 <= b * (1 / 1 - f) + r * f <= 1).
  { intros b r Hb Hr. split; nra. }
  split; [apply Hmix; assumption |].
  split; apply Hmix; assumption.
Qed.

Lemma olefresnel_unit (r g c : R) :
  0 <= g <= 1 -> 0 <= c ->
  exists v : R,
    olefresnel (Some r : xreal) (Some g) (Some c) = Some v /\ 0 <= v <= 1.
Proof.
  intros Hg Hc.
  destruct (ole_back_solve_facts r g Hg) as [Hn Hk2]. cbn zeta in Hn, Hk2.
  destruct (fresnel_denominators _ _ c Hn Hk2 Hc) as [Hs Hp].
  eexists. split.
  - apply olefresnel_exact; cbn zeta; lra.
  - apply fresnel_average_unit; try assumption; lra.
Qed.

Lemma getOleMetallicFresnel_unit (base reflection : Color xreal) (c : R) :
  color_unit base -> color_unit reflection -> 0 <= c ->
  color_unit (getOleMetallicFresnel base reflection (Some c)).
Proof.
  intros (b1 & b2 & b3 & -> & _) (r1 & r2 & r3 & -> & Hr1 & Hr2 & Hr3) Hc.
  unfold getOleMetallicFresnel. cbn [cr cg cb].
  destruct (olefresnel_unit b1 r1 c Hr1 Hc) as (v1 & -> & Hv1).
  destruct (olefresnel_unit b2 r2 c Hr2 Hc) as (v2 & -> & Hv2).
  destruct (olefresnel_unit b3 r3 c Hr3 Hc) as (v3 & -> & Hv3).
  exists v1, v2, v3. repeat split; lra.
Qed.

Lemma lengthSqr_sub_unit (a b : Color xreal) :
  color_unit a -> color_unit b ->
  exists e, lengthSqr (color_sub a b) = Some e /\ 0 <= e <= 3.
Proof.
  intros (a1 & a2 & a3 & -> & Ha1 & Ha2 & Ha3)
         (b1 & b2 & b3 & -> & Hb1 & Hb2 & Hb3).
  unfold lengthSqr, color_sub.
  cbn [cr cg cb fadd fsub fmul xreal_arith xlift2].
  eexists. split; [reflexivity |].
  assert (Hsq : forall d : R, -1 <= d <= 1 -> 0 <= d * d <= 1).
  { intros d Hd. split; nra. }
  pose proof (Hsq (a1 - b1) ltac:(lra)).
  pose proof (Hsq (a2 - b2) ltac:(lra)).
  pose proof (Hsq (a3 - b3) ltac:(lra)).
  lra.
Qed.

Lemma squared_error_sum_bounded (approx physical : xreal -> Color xreal)
    (l : list xreal) :
  (forall x, In x l -> color_unit (approx x) /\ color_unit (physical x)) ->
  exists e,
    squared_error_sum (D := xreal) approx physical l = Some e
    /\ 0 <= e <= 3 * IZR (Z.of_nat (List.length l)).
Proof.
  unfold squared_error_sum. cbn [widen xreal_widen lit xreal_arith].
  assert (Hgen : forall a : R,
            (forall x, In x l ->
               color_unit (approx x) /\ color_unit (physical x)) ->
            exists e,
              fold_left
                (fun (sum : xreal) x =>
                   (sum + lengthSqr (color_sub (approx x) (physical x)))%fl)
                l (Some a) = Some e
              /\ a <= e <= a + 3 * IZR (Z.of_nat (List.length l))).
  { induction l as [| x l IH]; intros a Hall.
    - exists a. split; [reflexivity |]. cbn [List.length Z.of_nat]. lra.
    - destruct (Hall x (or_introl eq_refl)) as [Ha Hp].
      destruct (lengthSqr_sub_unit _ _ Ha Hp) as (d & Hd & Hdr).
      cbn [fold_left]. rewrite Hd. cbn [fadd xreal_arith xlift2].
      destruct (IH (a + d) (fun y Hy => Hall y (or_intror Hy)))
        as (e & He & Her).
      exists e. split; [exact He |].
      cbn [List.length]. rewrite Nat2Z.inj_succ, succ_IZR. lra. }
  intros Hall. destruct (Hgen (0 / 1) Hall) as (e & He & Her).
  exists e. split; [exact He | lra].
Qed.

Lemma rmse_exact (e : R) :
  0 <= e <= 3 * 1599 ->
  exists v,
    fsqrt (Some e / widen (of_int 1600 : xreal))%fl = Some v
    /\ 0 <= v /\ v * v <= 3.
Proof.
  intros He. cbn [widen xreal_widen of_int fdiv fsqrt xreal_arith].
  rewrite xdiv_defined by lra. unfold xsqrt.
  assert (Hq : 0 <= e / 1600) by lra.
  destruct (Rlt_dec (e / 1600) 0) as [Hneg | _]; [lra |].
  exists (sqrt (e / 1600)). split; [reflexivity |].
  split; [apply sqrt_pos |].
  rewrite sqrt_sqrt by exact Hq. lra.
Qed.

Variables n1 n2 n3 k1 k2 k3 : R.
Hypothesis Hn1 : 0 < n1.
Hypothesis Hn2 : 0 < n2.
Hypothesis Hn3 : 0 < n3.

Lemma fit_sum_bounded (ior : R) :
  (forall x : R, 0 <= x <= 1 ->
     exists f, fresnel_coeff (Some ior) (Some x) = Some f /\ 0 <= f <= 1) ->
  let n := mkColor (Some n1) (Some n2) (Some n3) in
  let k := mkColor (Some k1) (Some k2) (Some k3) in
  exists e,
    fit_sum (D := xreal) n k
      (getComplexFresnel n k (lit 1 1)) (getComplexFresnel n k (lit 0 1))
      (Some ior) = Some e
    /\ 0 <= e <= 597.
Proof.
  intros Hf n k. rewrite fit_sum_closed.
  destruct (squared_error_sum_bounded
              (getVRayMetallicFresnel (getComplexFresnel n k (lit 1 1))
                 (getComplexFresnel n k (lit 0 1)) (Some ior))
              (getComplexFresnel n k) (angles 200))
    as (e & He & Her).
  - intros x Hx. apply angles_exact in Hx as (v & -> & Hv); [| lia].
    destruct (Hf v ltac:(lra)) as (f & Hfc & Hfr).
    split.
    + apply (blend_unit _ _ _ _ f); try assumption;
        apply getComplexFresnel_unit; try assumption;
        cbn [lit xreal_arith]; lra.
    + apply getComplexFresnel_unit; try assumption; lra.
  - exists e. split; [exact He |].
    rewrite angles_length in Her.
    replace (IZR (Z.of_nat (Z.to_nat (200 - 1)))) with 199 in Her
      by (rewrite Z2Nat.id by lia; reflexivity).
    lra.
Qed.

Lemma vrayError_driver_exact (ior : R) :
  (forall x : R, 0 <= x <= 1 ->
     exists f, fresnel_coeff (Some ior) (Some x) = Some f /\ 0 <= f <= 1) ->
  let n := mkColor (Some n1) (Some n2) (Some n3) in
  let k := mkColor (Some k1) (Some k2) (Some k3) in
  exists v,
    vrayError_driver (D := xreal) n k (Some ior) = Some v
    /\ 0 <= v /\ v * v <= 3.
Proof.
  intros Hf n k. unfold vrayError_driver.
  destruct (squared_error_sum_bounded
              (getVRayMetallicFresnel (getComplexFresnel n k (lit 1 1))
                 (getComplexFresnel n k (lit 0 1)) (Some ior))
              (getComplexFresnel n k) (angles 1600))
    as (e & He & Her).
  - intros x Hx. apply angles_exact in Hx as (v & -> & Hv); [| lia].
    destruct (Hf v ltac:(lra)) as (f & Hfc & Hfr).
    split.
    + apply (blend_unit _ _ _ _ f); try assumption;
        apply getComplexFresnel_unit; try assumption;
        cbn [lit xreal_arith]; lra.
    + apply getComplexFresnel_unit; try assumption; lra.
  - rewrite He. apply rmse_exact.
    rewrite angles_length in Her.
    replace (IZR (Z.of_nat (Z.to_nat (1600 - 1)))) with 1599 in Her
      by (rewrite Z2Nat.id by lia; reflexivity).
    lra.
Qed.

Lemma oleError_driver_exact :
  let n := mkColor (Some n1) (Some n2) (Some n3) in
  let k := mkColor (Some k1) (Some k2) (Some k3) in
  exists v,
    oleError_driver (D := xreal) n k = Some v /\ 0 <= v /\ v * v <= 3.
Proof.
  intros n k. unfold oleError_driver.
  destruct (squared_error_sum_bounded
              (getOleMetallicFresnel (getComplexFresnel n k (lit 1 1))
                 (getComplexFresnel n k (lit 0 1)))
              (getComplexFresnel n k) (angles 1600))
    as (e & He & Her).
  - intros x Hx. apply angles_exact in Hx as (v & -> & Hv); [| lia].
    split.
    + apply getOleMetallicFresnel_unit; [| | lra];
        apply getComplexFresnel_unit; try assumption;
        cbn [lit xreal_arith]; lra.
    + apply getComplexFresnel_unit; try assumption; lra.
  - rewrite He. apply rmse_exact.
    rewrite angles_length in Her.
    replace (IZR (Z.of_nat (Z.to_nat (1600 - 1)))) with 1599 in Her
      by (rewrite Z2Nat.id by lia; reflexivity).
    lra.
Qed.
End ExactScores.

(** X16: exact arithmetic.  For a preset with n > 0 at each wavelength and
    SDK helpers whose Fresnel coefficient is defined and lies in [0,1] for
    every index strictly between 1 and 10 and every cosine in [0,1]: every
    candidate's sum is defined and at most 597, so [findIOR] returns one of
    the candidates, strictly between 1 and 10, and not its initial value -1;
    the line of the report carries that value, and both error scores are
    defined, non-negative and at most the square root of 3. *)
Theorem findIOR_exact_range (K : SDK xreal) (name : string)
    (n1 n2 n3 k1 k2 k3 : R) :
  (0 < n1)%R -> (0 < n2)%R -> (0 < n3)%R ->
  (forall ior x : R, (1 < ior < 10)%R -> (0 <= x <= 1)%R ->
     exists f, fresnel_coeff (Some ior) (Some x) = Some f
               /\ (0 <= f <= 1)%R) ->
  let n := mkColor (Some n1) (Some n2) (Some n3) in
  let k := mkColor (Some k1) (Some k2) (Some k3) in
  exists (g : list xreal) (r : R),
    ior_grid enough_fuel (lit 1001 1000) = Some g
    /\ (forall q, In q g ->
          exists e,
            fit_sum (D := xreal) n k (getComplexFresnel n k (lit 1 1))
              (getComplexFresnel n k (lit 0 1)) q = Some e
            /\ (0 <= e <= 597)%R)
    /\ findIOR (D := xreal) enough_fuel n k = Some (Some r)
    /\ In (Some r) g
    /\ (1 < r < 10)%R
    /\ exists (row : csv_row xreal xreal) (b : list (Z * Z)) (v o : R),
         preset_report enough_fuel (mkPreset name n k) = Some (row, b)
         /\ row_ior row = Some r
         /\ row_vrayError row = Some v
         /\ row_oleError row = Some o
         /\ (0 <= v)%R /\ (v * v <= 3)%R
         /\ (0 <= o)%R /\ (o * o <= 3)%R.
Proof.
  intros H1 H2 H3 Hf n k.
  assert (Hfuel : enough_fuel = S (Z.to_nat 8999)).
  { unfold enough_fuel. rewrite <- Z2Nat.inj_succ by lia. reflexivity. }
  destruct (ior_grid_exact_values (Z.to_nat 8999) (1001 / 1000)%R)
    as (g & Hg & Hlen & Hnth).
  { rewrite Z2Nat.id by lia. lra. }
  { rewrite Z2Nat.id by lia. lra. }
  rewrite <- Hfuel in Hg.
  change (Some (1001 / 1000)%R) with (lit 1001 1000 : xreal) in Hg.
  assert (Hrange : forall q, In q g ->
            exists v, q = Some v /\ (1 < v < 10)%R).
  { intros q Hq. apply In_nth_error in Hq as [i Hi].
    assert (Hlt : (i < Z.to_nat 8999)%nat).
    { rewrite <- Hlen. apply nth_error_Some. rewrite Hi. discriminate. }
    destruct (Hnth i Hlt) as (v & Hv & Hval).
    rewrite Hi in Hv. injection Hv as ->. exists v. split; [reflexivity |].
    assert (0 <= IZR (Z.of_nat i))%R by (apply IZR_le; lia).
    assert (IZR (Z.of_nat i) <= 8998)%R by (apply IZR_le; lia).
    lra. }
  assert (Hsum : forall q, In q g ->
            exists e,
              fit_sum (D := xreal) n k (getComplexFresnel n k (lit 1 1))
                (getComplexFresnel n k (lit 0 1)) q = Some e
              /\ (0 <= e <= 597)%R).
  { intros q Hq. destruct (Hrange q Hq) as (v & -> & Hv).
    apply fit_sum_bounded; try assumption.
    intros x Hx. apply Hf; assumption. }
  destruct (findIOR_earliest_minimum_exact K n k enough_fuel g Hg)
    as [[_ Hall] | (g1 & p & g2 & e & Hsplit & Hres & _)].
  - intros q Hq. destruct (Hsum q Hq) as (e & He & _). exists e. exact He.
  - exfalso.
    destruct (Hnth 0%nat) as (v & Hv & _); [lia |].
    assert (Hin : In (Some v) g) by (eapply nth_error_In; exact Hv).
    destruct (Hall _ Hin) as (e & He & Hbig).
    destruct (Hsum _ Hin) as (e' & He' & Hsmall).
    rewrite He in He'. injection He' as <-. lra.
  - assert (Hin : In p g).
    { rewrite Hsplit. apply in_or_app. right. left. reflexivity. }
    destruct (Hrange p Hin) as (r & -> & Hr).
    exists g, r. split; [exact Hg |]. split; [exact Hsum |].
    split; [exact Hres |]. split; [exact Hin |]. split; [exact Hr |].
    assert (Hrep : exists row b,
               preset_report (D := xreal) enough_fuel (mkPreset name n k)
               = Some (row, b)).
    { unfold preset_report. cbn [preset_n preset_k]. rewrite Hres.
      eexists _, _. reflexivity. }
    destruct Hrep as (row & b & Hrep).
    destruct (preset_report_closed _ _ _ _ Hrep)
      as (ior & Hfind & Hior & _ & Hv & Ho).
    cbn [preset_n preset_k] in Hfind, Hv, Ho.
    rewrite Hres in Hfind. injection Hfind as <-.
    destruct (vrayError_driver_exact n1 n2 n3 k1 k2 k3 H1 H2 H3 r
                (fun x Hx => Hf r x Hr Hx))
      as (v & Hvd & Hv0 & Hv3).
    destruct (oleError_driver_exact n1 n2 n3 k1 k2 k3 H1 H2 H3)
      as (o & Hod & Ho0 & Ho3).
    exists row, b, v, o. split; [exact Hrep |]. split; [exact Hior |].
    split; [rewrite Hv; exact Hvd |]. split; [rewrite Ho; exact Hod |].
    repeat split; assumption.
Qed.

Lemma findIOR_exact_range_witness :
  exists (g : list xreal) (r : R),
    ior_grid enough_fuel (lit 1001 1000) = Some g
    /\ findIOR (K := flat_sdk (Some (1 / 4)%R)) (D := xreal) enough_fuel
         (mkColor (Some 2%R) (Some 2%R) (Some 2%R))
         (mkColor (Some 3%R) (Some 3%R) (Some 3%R)) = Some (Some r)
    /\ (1 < r < 10)%R.
Proof.
  destruct (findIOR_exact_range (flat_sdk (Some (1 / 4)%R)) "sample"
              2 2 2 3 3 3)
    as (g & r & Hg & _ & Hres & _ & Hr & _); try lra.
  - intros ior x _ _. exists (1 / 4)%R. split; [reflexivity | lra].
  - exists g, r. split; [exact Hg |]. split; [exact Hres | exact Hr].
Defined.
